(** * go-msgauth / dkim: tag lists, header reading, header picking,
    body canonicalization and the body-hash stage of verification.

    Go strings and byte slices are both modelled as [list ascii] (Go
    strings are byte sequences; [ascii] is an 8-bit byte).  Functions keep
    the names of the Go functions they embed. *)

From Stdlib Require Import Ascii String ZArith Lia Sorted.
From stdpp Require Import base list gmap strings.

Abbreviation bytes := (list ascii).

Definition bs (s : string) : bytes := list_ascii_of_string s.
Arguments bs _%_string.

Definition CR : ascii := "013"%char.
Definition LF : ascii := "010"%char.
Definition SP : ascii := " "%char.
Definition HTAB : ascii := "009"%char.
Definition crlf : bytes := [CR; LF].

Definition beq (a b : ascii) : bool := bool_decide (a = b).

(** ** Go standard library helpers *)

(** [strings.Split(s, sep)] for a one-byte separator: always at least one
    element. *)
Fixpoint Split (sep : ascii) (s : bytes) : list bytes :=
  match s with
  | [] => [[]]
  | c :: s' =>
      let r := Split sep s' in
      if beq c sep then [] :: r
      else match r with
           | x :: r' => (c :: x) :: r'
           | [] => [[c]]
           end
  end.

(** [strings.SplitN(s, sep, 2)]: cut at the first occurrence. *)
Fixpoint cut_first (sep : ascii) (s : bytes) : option (bytes * bytes) :=
  match s with
  | [] => None
  | c :: s' =>
      if beq c sep then Some ([], s')
      else match cut_first sep s' with
           | Some (a, b) => Some (c :: a, b)
           | None => None
           end
  end.

Definition SplitN2 (sep : ascii) (s : bytes) : list bytes :=
  match cut_first sep s with
  | Some (a, b) => [a; b]
  | None => [s]
  end.

(** [unicode.IsSpace] on the UTF-8 encoding: the ASCII table of
    [strings.TrimSpace] ('\t', '\n', '\v', '\f', '\r', ' ') and the
    multi-byte encodings of U+0085, U+00A0, U+1680, U+2000..U+200A, U+2028,
    U+2029, U+202F, U+205F and U+3000. *)
Definition asciiSpace (c : ascii) : bool :=
  match c with
  | "009" | "010" | "011" | "012" | "013" | " " => true
  | _ => false
  end%char.

Definition space2 (c1 c2 : ascii) : bool :=
  (nat_of_ascii c1 =? 194) && ((nat_of_ascii c2 =? 133) || (nat_of_ascii c2 =? 160)).

Definition space3 (c1 c2 c3 : ascii) : bool :=
  let a := nat_of_ascii c1 in
  let b := nat_of_ascii c2 in
  let c := nat_of_ascii c3 in
  ((a =? 225) && (b =? 154) && (c =? 128))
  || ((a =? 226) && (b =? 128) && ((128 <=? c) && (c <=? 138)
                                   || (c =? 168) || (c =? 169) || (c =? 175)))
  || ((a =? 226) && (b =? 129) && (c =? 159))
  || ((a =? 227) && (b =? 128) && (c =? 128)).

(** Drop leading white-space runes.  [sp2]/[sp3] recognise the multi-byte
    encodings in the order the bytes are met. *)
Fixpoint trim_front (sp2 : ascii -> ascii -> bool) (sp3 : ascii -> ascii -> ascii -> bool)
    (s : bytes) : bytes :=
  match s with
  | [] => []
  | c :: s1 =>
      if asciiSpace c then trim_front sp2 sp3 s1 else
      match s1 with
      | c2 :: s2 =>
          if sp2 c c2 then trim_front sp2 sp3 s2 else
          match s2 with
          | c3 :: s3 => if sp3 c c2 c3 then trim_front sp2 sp3 s3 else s
          | [] => s
          end
      | [] => s
      end
  end.

Definition TrimLeftSpace (s : bytes) : bytes := trim_front space2 space3 s.

(** Trimming on the right reads the bytes backwards, so the multi-byte
    encodings are recognised reversed (as [utf8.DecodeLastRuneInString]
    finds them). *)
Definition TrimRightSpace (s : bytes) : bytes :=
  rev (trim_front (fun b a => space2 a b) (fun c b a => space3 a b c) (rev s)).

(** [strings.TrimSpace] = [TrimFunc(s, unicode.IsSpace)]. *)
Definition TrimSpace (s : bytes) : bytes := TrimRightSpace (TrimLeftSpace s).

(** ** Tag lists (header.go) *)

(** [parseHeaderParams]: Go returns both the map built so far and the
    error. *)
Fixpoint parse_pairs (pairs : list bytes) (params : gmap bytes bytes)
    : gmap bytes bytes * option string :=
  match pairs with
  | [] => (params, None)
  | s :: rest =>
      match SplitN2 "="%char s with
      | [k; v] => parse_pairs rest (<[TrimSpace k := TrimSpace v]> params)
      | _ =>
          if bool_decide (TrimSpace s = []) then parse_pairs rest params
          else (params, Some "dkim: malformed header params"%string)
      end
  end.

Definition parseHeaderParams (s : bytes) : gmap bytes bytes * option string :=
  parse_pairs (Split ";"%char s) ∅.

(** The map of a successful parse. *)
Definition parse_ok (r : gmap bytes bytes * option string) : option (gmap bytes bytes) :=
  match r with
  | (m, None) => Some m
  | (_, Some _) => None
  end.

(** Go [params[k]]: the zero value for a missing key. *)
Definition idx (m : gmap bytes bytes) (k : bytes) : bytes := default [] (m !! k).

Definition len (s : bytes) : Z := Z.of_nat (length s).

(** Go string comparison [a < b]: bytewise lexicographic. *)
Fixpoint str_lt (a b : bytes) : bool :=
  match a, b with
  | _, [] => false
  | [], _ :: _ => true
  | x :: a', y :: b' =>
      if nat_of_ascii x <? nat_of_ascii y then true
      else if nat_of_ascii x =? nat_of_ascii y then str_lt a' b'
      else false
  end.

(** The comparator given to [sort.Slice] in [formatHeaderParams]. *)
Definition key_less (params : gmap bytes bytes) (a b : bytes) : bool :=
  if (len (idx params a) =? len (idx params b))%Z then str_lt a b
  else (len (idx params a) <? len (idx params b))%Z.

(** [sort.Slice]: the comparator is a strict total order on distinct keys,
    so every correct sort yields the same slice; insertion sort here. *)
Fixpoint insert_sorted (lt : bytes -> bytes -> bool) (x : bytes) (l : list bytes) : list bytes :=
  match l with
  | [] => [x]
  | y :: l' => if lt x y then x :: l else y :: insert_sorted lt x l'
  end.

Fixpoint sort_by (lt : bytes -> bytes -> bool) (l : list bytes) : list bytes :=
  match l with
  | [] => []
  | x :: l' => insert_sorted lt x (sort_by lt l')
  end.

Definition headerFieldName : bytes := bs "DKIM-Signature".

(** [foldHeaderField]: [bytes.Buffer.Read] into a 75-byte slice until
    [io.EOF], pieces joined by CRLF SP. *)
Fixpoint fold_chunks (fuel : nat) (first : bool) (buf : bytes) : bytes :=
  match fuel with
  | 0 => []
  | S f =>
      match buf with
      | [] => []
      | _ => (if first then [] else [CR; LF; SP]) ++ take 75 buf
             ++ fold_chunks f false (drop 75 buf)
      end
  end.

Definition foldHeaderField (kv : bytes) : bytes := fold_chunks (length kv) true kv.

(** [wrapHeaders]: fold an [h=] value at the colons. *)
Fixpoint wrap_loop (headers : list bytes) (avail : Z) : bytes :=
  match headers with
  | [] => []
  | header :: rest =>
      let chars := (len header + 1)%Z in
      let '(brk, avail1) := if (avail <? chars)%Z then (crlf ++ [SP], 75%Z) else ([], avail) in
      brk ++ header ++ (match rest with [] => [";"%char] | _ => [":"%char] end)
          ++ wrap_loop rest (avail1 - chars)%Z
  end.

Definition wrapHeaders (values : bytes) : bytes :=
  bs "h=" ++ wrap_loop (Split ":"%char values) (75 - len (bs " h="))%Z.

(** The key order of [formatHeaderParams]: every key but [b] sorted by
    [key_less], then [b] when present. *)
Definition fmt_keys (params : gmap bytes bytes) : list bytes :=
  let all := map fst (map_to_list params) in
  let keys := filter (fun k => k <> bs "b") all in
  let found := existsb (fun k => bool_decide (k = bs "b")) all in
  sort_by (key_less params) keys ++ (if found then [bs "b"] else []).

Fixpoint fmt_loop (params : gmap bytes bytes) (keys : list bytes) (avail : Z) : bytes :=
  match keys with
  | [] => []
  | k :: ks =>
      let v := idx params k in
      let chars := (len k + len v + 3)%Z in
      let '(pre, avail1) :=
        if (avail <? chars)%Z || bool_decide (k = bs "b") then (crlf, 75%Z) else ([], avail) in
      let avail2 := (avail1 - chars)%Z in
      pre ++ [SP]
          ++ (if (avail2 <? 0)%Z then
                (if bool_decide (k = bs "h") then wrapHeaders v
                 else foldHeaderField (k ++ bs "=" ++ v ++ bs ";"))
              else k ++ bs "=" ++ v ++ bs ";")
          ++ fmt_loop params ks avail2
  end.

Definition formatHeaderParams (params : gmap bytes bytes) : bytes :=
  fmt_loop params (fmt_keys params) (75 - len headerFieldName - len (bs ": "))%Z.

(** Reference reading of the tag-list grammar (spec, section 4.2 and the
    TagMap data model): split on [;], drop the blank segments, every other
    segment must contain [=]; cut at the first [=] and trim both sides.
    [first_wins] selects which occurrence of a repeated tag name is kept. *)
Definition tag_segments (s : bytes) : list bytes :=
  filter (fun seg => TrimSpace seg <> []) (Split ";"%char s).

Definition ref_pair (seg : bytes) : option (bytes * bytes) :=
  match cut_first "="%char seg with
  | Some (k, v) => Some (TrimSpace k, TrimSpace v)
  | None => None
  end.

Definition ref_step (first_wins : bool) (m : gmap bytes bytes) (kv : bytes * bytes)
    : gmap bytes bytes :=
  if first_wins && bool_decide (is_Some (m !! kv.1)) then m else <[kv.1 := kv.2]> m.

Definition tag_list_ref (first_wins : bool) (s : bytes) : option (gmap bytes bytes) :=
  foldl (ref_step first_wins) ∅ <$> mapM ref_pair (tag_segments s).

(** ** Header reading and header fields (header.go) *)

(** [bufio.Reader.ReadLine] strips the LF and one CR right before it. *)
Definition strip_cr (l : bytes) : bytes :=
  match last l with
  | Some c => if beq c CR then removelast l else l
  | None => l
  end.

(** [textproto.Reader.ReadLine] on an in-memory reader: the bytes up to the
    next LF; at end of input a non-empty unterminated rest is the last
    line; [None] is [io.EOF].  Returns the line and the unread bytes. *)
Definition ReadLine (r : bytes) : option (bytes * bytes) :=
  match cut_first LF r with
  | Some (l, rest) => Some (strip_cr l, rest)
  | None => match r with [] => None | _ => Some (r, []) end
  end.

(** [h[len(h)-1] += s] *)
Definition append_last (h : list bytes) (s : bytes) : list bytes :=
  match last h with
  | Some x => removelast h ++ [x ++ s]
  | None => h
  end.

(** The [for] loop of [readHeader]; [inl (h, rest)] is [(h, nil)] with the
    reader positioned at [rest], [inr (h, msg)] the error return.  Every
    successful [ReadLine] consumes a byte, so [S (length r)] rounds
    suffice. *)
Fixpoint readHeader_loop (fuel : nat) (r : bytes) (h : list bytes)
    : (list bytes * bytes) + (list bytes * string) :=
  match fuel with
  | 0 => inr (h, "failed to read header: EOF"%string)
  | S f =>
      match ReadLine r with
      | None => inr (h, "failed to read header: EOF"%string)
      | Some (l, r') =>
          match l with
          | [] => inl (h, r')
          | c :: _ =>
              if bool_decide (h <> []) && (beq c SP || beq c HTAB)
              then readHeader_loop f r' (append_last h (l ++ crlf))
              else readHeader_loop f r' (h ++ [l ++ crlf])
          end
      end
  end.

Definition readHeader (r : bytes) : (list bytes * bytes) + (list bytes * string) :=
  readHeader_loop (S (length r)) r [].

(** [parseHeaderField] *)
Definition parseHeaderField (s : bytes) : bytes * bytes :=
  match SplitN2 ":"%char s with
  | [k; v] => (TrimSpace k, TrimSpace v)
  | k :: _ => (TrimSpace k, [])
  | [] => ([], [])
  end.

(** ** Header picker *)

Section Picker.
(** [strings.ToLower] (Unicode-aware in Go): the picker only needs it to
    be a function. *)
Variable ToLower : bytes -> bytes.

Record headerPicker := { ph : list bytes; picked : gmap bytes nat }.

Definition newHeaderPicker (h : list bytes) : headerPicker :=
  {| ph := h; picked := ∅ |}.

(** The loop [for i := len(p.h) - 1; i >= 0; i--], run over [rev p.h]. *)
Fixpoint pick_scan (key : bytes) (hs : list bytes) (at_ : nat) : option bytes :=
  match hs with
  | [] => None
  | kv :: hs' =>
      if bool_decide (ToLower (parseHeaderField kv).1 = key) then
        match at_ with
        | 0 => Some kv
        | S a => pick_scan key hs' a
        end
      else pick_scan key hs' at_
  end.

Definition Pick (p : headerPicker) (key0 : bytes) : headerPicker * bytes :=
  let key := ToLower key0 in
  let at_ := default 0 (picked p !! key) in
  match pick_scan key (rev (ph p)) at_ with
  | Some kv => ({| ph := ph p; picked := <[key := S at_]> (picked p) |}, kv)
  | None => (p, [])
  end.

(** Successive calls [p.Pick(k)] for the keys in order. *)
Fixpoint Pick_all (p : headerPicker) (keys : list bytes) : list bytes :=
  match keys with
  | [] => []
  | k :: ks => let '(p', kv) := Pick p k in kv :: Pick_all p' ks
  end.
End Picker.

(** ** Body canonicalization (canonical.go) *)

(** [fixCRLF]: insert a CR before every LF not preceded by a CR in [b]. *)
Fixpoint fixCRLF_go (prev : option ascii) (b : bytes) : bytes :=
  match b with
  | [] => []
  | c :: b' =>
      (if beq c LF && negb (match prev with Some p => beq p CR | None => false end)
       then [CR; c] else [c]) ++ fixCRLF_go (Some c) b'
  end.

Definition fixCRLF (b : bytes) : bytes := fixCRLF_go None b.

(** [b[i]] *)
Definition at_ (b : bytes) (i : nat) : ascii := nth i b "000"%char.

Record simpleBodyCanonicalizer := { s_crlfBuf : bytes }.

(** The loop [for end >= 2 { ... end -= 2 }] keeping trailing CRLFs back. *)
Fixpoint keep_crlf (fuel : nat) (b : bytes) (e : nat) : nat :=
  match fuel with
  | 0 => e
  | S f =>
      if (2 <=? e) && beq (at_ b (e - 2)) CR && beq (at_ b (e - 1)) LF
      then keep_crlf f b (e - 2) else e
  end.

(** A canonicalizer [Write] returns its new state and the writes it makes
    to the downstream writer, in order. *)
Definition simple_Write (c : simpleBodyCanonicalizer) (input : bytes)
    : simpleBodyCanonicalizer * list bytes :=
  let b := fixCRLF (s_crlfBuf c ++ input) in
  let e0 := length b in
  let e1 := if (0 <? e0) && beq (at_ b (e0 - 1)) CR then e0 - 1 else e0 in
  let e := keep_crlf e1 b e1 in
  ({| s_crlfBuf := drop e b |}, if 0 <? e then [take e b] else []).

Definition simple_Close (c : simpleBodyCanonicalizer) : list bytes :=
  (match last (s_crlfBuf c) with
   | Some x => if beq x CR then [s_crlfBuf c] else []
   | None => []
   end) ++ [crlf].

Record relaxedBodyCanonicalizer :=
  { r_crlfBuf : bytes; r_wspBuf : bytes; r_written : bool }.

(** The [for _, ch := range b] loop of [relaxedBodyCanonicalizer.Write];
    returns [(canonical, crlfBuf, wspBuf)]. *)
Fixpoint relaxed_loop (b : bytes) (crlfBuf wspBuf canonical : bytes) : bytes * bytes * bytes :=
  match b with
  | [] => (canonical, crlfBuf, wspBuf)
  | ch :: b' =>
      if beq ch SP || beq ch HTAB then relaxed_loop b' crlfBuf (wspBuf ++ [ch]) canonical
      else if beq ch CR || beq ch LF then relaxed_loop b' (crlfBuf ++ [ch]) [] canonical
      else
        let canonical1 := if 0 <? length crlfBuf then canonical ++ crlfBuf else canonical in
        let canonical2 := if 0 <? length wspBuf then canonical1 ++ [SP] else canonical1 in
        relaxed_loop b' [] [] (canonical2 ++ [ch])
  end.

Definition relaxed_Write (c : relaxedBodyCanonicalizer) (input : bytes)
    : relaxedBodyCanonicalizer * list bytes :=
  let b := fixCRLF input in
  let '(canonical, cb, wb) := relaxed_loop b (r_crlfBuf c) (r_wspBuf c) [] in
  ({| r_crlfBuf := cb; r_wspBuf := wb; r_written := r_written c || (0 <? length canonical) |},
   [canonical]).

Definition relaxed_Close (c : relaxedBodyCanonicalizer) : list bytes :=
  if r_written c then [crlf] else [].

(** A sequence of [Write] calls followed by [Close]: all downstream writes. *)
Fixpoint simple_writes (c : simpleBodyCanonicalizer) (chunks : list bytes) : list bytes :=
  match chunks with
  | [] => simple_Close c
  | x :: xs => let '(c', w) := simple_Write c x in w ++ simple_writes c' xs
  end.

Fixpoint relaxed_writes (c : relaxedBodyCanonicalizer) (chunks : list bytes) : list bytes :=
  match chunks with
  | [] => relaxed_Close c
  | x :: xs => let '(c', w) := relaxed_Write c x in w ++ relaxed_writes c' xs
  end.

Inductive Canonicalization := CanonicalizationSimple | CanonicalizationRelaxed.

(** [canonicalizers[can].CanonicalizeBody(w)] driven by the chunks. *)
Definition CanonicalizeBody (can : Canonicalization) (chunks : list bytes) : list bytes :=
  match can with
  | CanonicalizationSimple => simple_writes {| s_crlfBuf := [] |} chunks
  | CanonicalizationRelaxed =>
      relaxed_writes {| r_crlfBuf := []; r_wspBuf := []; r_written := false |} chunks
  end.

(** ** [limitedWriter] in front of the body hasher *)

(** [lw_W] is everything the wrapped hasher has received ([hash.Hash.Write]
    takes all bytes and never fails). *)
Record limitedWriter := { lw_W : bytes; lw_N : Z }.

Definition limitedWriter_Write (w : limitedWriter) (b : bytes)
    : limitedWriter * Z * option string :=
  if (lw_N w <=? 0)%Z then (w, len b, None)
  else
    let '(b1, skipped) :=
      if (len b >? lw_N w)%Z then
        let b1 := take (Z.to_nat (lw_N w)) b in (b1, (len b1 - lw_N w)%Z)
      else (b, 0%Z) in
    let n := len b1 in
    ({| lw_W := lw_W w ++ b1; lw_N := (lw_N w - n)%Z |}, (n + skipped)%Z, None).

(** The writes of a canonicalizer into a [limitedWriter]; the results of
    each [Write] call are collected. *)
Fixpoint limited_feed (w : limitedWriter) (writes : list bytes)
    : limitedWriter * list (Z * option string) :=
  match writes with
  | [] => (w, [])
  | b :: bs' =>
      let '(w1, n, err) := limitedWriter_Write w b in
      let '(w2, rs) := limited_feed w1 bs' in (w2, (n, err) :: rs)
  end.

(** The bytes the body hasher receives in [verify]: through a
    [limitedWriter] when [bodyLen >= 0] ([l=] present), directly otherwise. *)
Definition body_hash_input (bodyCan : Canonicalization) (bodyLen : Z) (body : list bytes) : bytes :=
  let writes := CanonicalizeBody bodyCan body in
  if (bodyLen >=? 0)%Z then lw_W (limited_feed {| lw_W := []; lw_N := bodyLen |} writes).1
  else concat writes.

(** ** Header canonicalization and signature removal *)

(** [rxReduceWS.ReplaceAllString(s, " ")] with [[ \t\r\n]+]. *)
Definition reduce_ws_byte (c : ascii) : bool :=
  beq c SP || beq c HTAB || beq c CR || beq c LF.

Fixpoint reduceWS (in_run : bool) (s : bytes) : bytes :=
  match s with
  | [] => []
  | c :: s' =>
      if reduce_ws_byte c then (if in_run then [] else [SP]) ++ reduceWS true s'
      else c :: reduceWS false s'
  end.

Section HeaderCanon.
Variable ToLower : bytes -> bytes.

(** [CanonicalizeHeader] of both canonicalizers. *)
Definition CanonicalizeHeader (can : Canonicalization) (s : bytes) : bytes :=
  match can with
  | CanonicalizationSimple => s
  | CanonicalizationRelaxed =>
      let kv := SplitN2 ":"%char s in
      let k := TrimSpace (ToLower (match kv with k0 :: _ => k0 | [] => [] end)) in
      let v := match kv with [_; v0] => TrimSpace (reduceWS false v0) | _ => [] end in
      k ++ bs ":" ++ v ++ crlf
  end.
End HeaderCanon.

(** RE2's [\s]: [[\t\n\f\r ]]. *)
Definition perl_space (c : ascii) : bool :=
  match c with
  | "009" | "010" | "012" | "013" | " " => true
  | _ => false
  end%char.

Fixpoint take_while (p : ascii -> bool) (s : bytes) : bytes :=
  match s with
  | c :: s' => if p c then c :: take_while p s' else []
  | [] => []
  end.

(** A match of [(b\s*=)[^;]+] at the start of [s]: the group and the rest. *)
Definition match_bsig (s : bytes) : option (bytes * bytes) :=
  match s with
  | b :: s1 =>
      if beq b "b"%char then
        let sp := take_while perl_space s1 in
        match drop (length sp) s1 with
        | e :: s3 =>
            if beq e "="%char then
              let v := take_while (fun c => negb (beq c ";"%char)) s3 in
              if 0 <? length v then Some (b :: sp ++ [e], drop (length v) s3) else None
            else None
        | [] => None
        end
      else None
  | [] => None
  end.

(** [ReplaceAllString(s, "$1")]: leftmost matches, left to right. *)
Fixpoint remove_sig_go (fuel : nat) (s : bytes) : bytes :=
  match fuel with
  | 0 => s
  | S f =>
      match s with
      | [] => []
      | c :: s' =>
          match match_bsig s with
          | Some (g, rest) => g ++ remove_sig_go f rest
          | None => c :: remove_sig_go f s'
          end
      end
  end.

Definition removeSignature (s : bytes) : bytes := remove_sig_go (length s) s.

(** [strings.TrimRight(s, "\r\n")] *)
Definition TrimRightCRLF (s : bytes) : bytes :=
  rev (drop (length (take_while (fun c => beq c CR || beq c LF) (rev s))) (rev s)).

(** ** Errors and their classification (dkim.go) *)

Inductive dkim_error :=
  | permFailError (msg : string)
  | tempFailError (msg : string)
  | failError (msg : string)
  | otherError (msg : string).

Definition IsPermFail (e : dkim_error) : bool :=
  match e with permFailError _ => true | _ => false end.
Definition IsTempFail (e : dkim_error) : bool :=
  match e with tempFailError _ => true | _ => false end.
Definition isFail (e : dkim_error) : bool :=
  match e with failError _ => true | _ => false end.

(** [subtle.ConstantTimeCompare] *)
Definition ConstantTimeCompare (x y : bytes) : Z := if bool_decide (x = y) then 1%Z else 0%Z.

(** ** The body-hash and signature stage of [verify]

    From [// Check body hash] to the end of [verify]: tag parsing, the key
    query and the algorithm checks before it have already succeeded and
    produced [headerKeys], [bodyLen], [bodyHashed] and [sig].  The body is
    the chunks [io.Copy] reads from an in-memory reader, so neither the copy
    nor the hasher writes fail. *)
Section VerifyBody.
(** [hasher.Sum(nil)] of everything written since the last [Reset]. *)
Variable hash_sum : bytes -> bytes.
(** [res.Verifier.Verify(hash, hashed, sig)]: [Some msg] is an error. *)
Variable Verifier_Verify : bytes -> bytes -> option string.
Variable ToLower : bytes -> bytes.

(** The header data hashed after [hasher.Reset()]. *)
Fixpoint hash_headers (headerCan : Canonicalization) (picker : headerPicker)
    (keys : list bytes) : bytes :=
  match keys with
  | [] => []
  | key :: ks =>
      let '(picker', kv) := Pick ToLower picker key in
      (if bool_decide (kv = []) then []
       else CanonicalizeHeader ToLower headerCan kv)
      ++ hash_headers headerCan picker' ks
  end.

Definition header_hash_input (h : list bytes) (headerKeys : list bytes) (sigField : bytes)
    (headerCan : Canonicalization) : bytes :=
  hash_headers headerCan (newHeaderPicker h) headerKeys
  ++ TrimRightCRLF (CanonicalizeHeader ToLower headerCan (removeSignature sigField)).

Definition verify_body_and_signature (h : list bytes) (headerKeys : list bytes)
    (sigField : bytes) (headerCan bodyCan : Canonicalization) (bodyLen : Z)
    (body : list bytes) (bodyHashed sig : bytes) : option dkim_error :=
  if negb (ConstantTimeCompare (hash_sum (body_hash_input bodyCan bodyLen body)) bodyHashed =? 1)%Z
  then Some (failError "body hash did not verify")
  else
    let hashed := hash_sum (header_hash_input h headerKeys sigField headerCan) in
    match Verifier_Verify hashed sig with
    | Some e => Some (failError ("signature did not verify: " ++ e))
    | None => None
    end.
End VerifyBody.

(** ** [VerifyWithOptions] and the signature limit *)

Record signature := { sig_i : nat; sig_v : bytes }.

Record Verification := {
  Domain : bytes;
  Identifier : bytes;
  HeaderKeys : list bytes;
  BodyLength : Z;
  Err : option dkim_error
}.

Inductive verify_error := ErrTooManySignatures | readError (msg : string).

Section VerifyOptions.
(** [strings.EqualFold] *)
Variable EqualFold : bytes -> bytes -> bool.
(** The per-signature [verify] of the header [h], with [Err] set. *)
Variable verify_one : list bytes -> signature -> Verification.

(** [for i, kv := range h { ... signatures = append(...) }] *)
Definition scan_signatures (h : list bytes) : list signature :=
  omap (fun '(i, kv) =>
          let '(k, v) := parseHeaderField kv in
          if EqualFold k headerFieldName then Some {| sig_i := i; sig_v := v |} else None)
       (imap pair h).

(** Modelled from the spec: the [MaxVerifications] option of
    [VerifyOptions] and the [ErrTooManySignatures] result of
    [VerifyWithOptions] (section 4.7, step 1; used by
    [TestVerify_tooManySignatures]).  A positive [MaxVerifications]
    smaller than the number of signatures keeps the first
    [MaxVerifications] signatures, verifies them, and returns their
    verifications together with [ErrTooManySignatures]; [0] means unset. *)
Definition VerifyWithOptions (h : list bytes) (MaxVerifications : nat)
    : list Verification * option verify_error :=
  let signatures := scan_signatures h in
  let tooMany := (0 <? MaxVerifications) && (MaxVerifications <? length signatures) in
  let signatures := if tooMany then take MaxVerifications signatures else signatures in
  (map (verify_one h) signatures, if tooMany then Some ErrTooManySignatures else None).
End VerifyOptions.

(** A tag that [formatHeaderParams] writes as [k=v;] on one line and that
    [parseHeaderParams] reads back unchanged: no [;] in name or value, no
    [=] in the name, nothing to trim around either, and short enough
    ([len(k)+len(v)+3 <= 75]) not to be folded inside its value. *)
Definition tag_ok (k v : bytes) : Prop :=
  ~ In ";"%char k /\ ~ In "="%char k /\ ~ In ";"%char v
  /\ TrimSpace k = k /\ TrimSpace v = v /\ (len k + len v + 3 <= 75)%Z.

(** The fields of [h] whose name matches [key] case-insensitively (by
    [ToLower] of both, as [Pick] compares), bottom-most first. *)
Definition picker_matches (ToLower : bytes -> bytes) (h : list bytes) (key : bytes) : list bytes :=
  filter (fun kv => ToLower (parseHeaderField kv).1 = ToLower key) (rev h).

(** Header lines written out with their CRLF terminators. *)
Definition header_lines (ls : list bytes) : bytes := concat (map (fun l => l ++ crlf) ls).

(** Input lines each terminated by a bare LF; a line ending in CR is a
    CRLF-terminated line. *)
Definition raw_lines (raw : list bytes) : bytes := concat (map (fun l => l ++ [LF]) raw).

(** The continuation test of [readHeader]: [l[0] == ' ' || l[0] == '\t']. *)
Definition starts_wsp (l : bytes) : bool :=
  match l with
  | c :: _ => beq c SP || beq c HTAB
  | [] => false
  end.

(** One round of the [readHeader] loop on a non-empty line [l]. *)
Definition header_step (h : list bytes) (l : bytes) : list bytes :=
  if bool_decide (h <> []) && starts_wsp l then append_last h (l ++ crlf) else h ++ [l ++ crlf].

(** Byte classes of the relaxed body canonicalization: WSP is SP or HTAB;
    whitespace in the wide sense adds CR and LF. *)
Definition is_wsp (c : ascii) : bool := beq c SP || beq c HTAB.

Definition is_ws (c : ascii) : bool := is_wsp c || beq c CR || beq c LF.

Definition has_nonws (s : bytes) : bool := existsb (fun c => negb (is_ws c)) s.

(** Every WSP byte of [s] is followed by a byte that is not whitespace. *)
Fixpoint wsp_followed_ok (s : bytes) : bool :=
  match s with
  | [] => true
  | [c] => negb (is_wsp c)
  | c :: ((d :: _) as s') => (negb (is_wsp c) || negb (is_ws d)) && wsp_followed_ok s'
  end.

(** The [Write] calls of the relaxed body canonicalizer alone (no [Close]):
    the final state and the writes made. *)
Fixpoint relaxed_Write_all (c : relaxedBodyCanonicalizer) (chunks : list bytes)
    : relaxedBodyCanonicalizer * list bytes :=
  match chunks with
  | [] => (c, [])
  | x :: xs =>
      let '(c', w) := relaxed_Write c x in
      let '(c'', ws) := relaxed_Write_all c' xs in (c'', w ++ ws)
  end.

(** The map [parseHeaderParams] builds from the tags [ks] of [m] written
    in order. *)
Definition insert_keys (m : gmap bytes bytes) (acc : gmap bytes bytes) (ks : list bytes) :=
  foldl (fun a k => <[k := idx m k]> a) acc ks.

(** The bytes the canonicalizers buffer as pending line ends. *)
Definition crlf_byte (c : ascii) : Prop := c = CR \/ c = LF.

(** ** Auxiliary notions for the properties below *)

(** [i != 0 && b[i-1] == '\r'] in [fixCRLF], with [prev] the byte before. *)
Definition prev_is_CR (prev : option ascii) : bool :=
  match prev with Some p => beq p CR | None => false end.

(** No [\n] of [s] lacks a [\r] before it ([prev] is the byte before [s]):
    the bytes [fixCRLF] leaves unchanged. *)
Fixpoint crlf_fixed (prev : option ascii) (s : bytes) : bool :=
  match s with
  | [] => true
  | c :: s' => (negb (beq c LF) || prev_is_CR prev) && crlf_fixed (Some c) s'
  end.

(** The [end] that [simpleBodyCanonicalizer.Write] computes on the buffer [b]. *)
Definition simple_end (b : bytes) : nat :=
  let e0 := length b in
  let e1 := if (0 <? e0) && beq (at_ b (e0 - 1)) CR then e0 - 1 else e0 in
  keep_crlf e1 b e1.

(** [n] copies of CRLF. *)
Definition crlf_run (n : nat) : bytes := concat (repeat crlf n).

(** After the input [X], the simple body canonicalizer has written [E] and
    holds [P] in [crlfBuf]. *)
Definition simple_state_ok (X E P : bytes) : Prop :=
  fixCRLF X = E ++ P /\ simple_end (E ++ P) = length E /\
  ~ crlf `suffix_of` E /\ (P = [] -> last E <> Some CR) /\
  exists n, P = crlf_run n \/ P = crlf_run n ++ [CR].

(** [writeHeader] into an in-memory writer: every field, then CRLF. *)
Definition writeHeader (h : list bytes) : bytes := concat h ++ crlf.

(** [strings.Join(xs, sep)] *)
Definition join (sep : bytes) (xs : list bytes) : bytes :=
  match xs with
  | [] => []
  | x :: xs' => x ++ concat (map (fun y => sep ++ y) xs')
  end.

(** ** Signature header building (dkim.go): [DKIMTag] and [DKIMSignature.AddTag] *)

Record DKIMTagDelim :=
  { dl_TagLen : nat; dl_TagAndValue : bytes; dl_Delimiter : bytes; dl_Idx : nat }.

Record DKIMTagBase64 := { b64_TagLen : nat; b64_TagAndValue : bytes; b64_Idx : nat }.

(** The [DKIMTag] interface and its two implementations. *)
Inductive DKIMTag := TagDelim (t : DKIMTagDelim) | TagBase64 (t : DKIMTagBase64).

(** [strings.HasPrefix(s, p)] *)
Fixpoint HasPrefix (s p : bytes) : bool :=
  match p, s with
  | [], _ => true
  | a :: p', b :: s' => beq a b && HasPrefix s' p'
  | _ :: _, [] => false
  end.

(** [strings.Index(s, sep)]; [None] is [-1]. *)
Fixpoint Index (s sep : bytes) : option nat :=
  if HasPrefix s sep then Some 0
  else match s with
       | [] => None
       | _ :: s' => option_map S (Index s' sep)
       end.

Definition delim_NextBreak (t : DKIMTagDelim) (idx : nat) : nat :=
  if idx =? 0 then dl_TagLen t
  else if idx =? dl_TagLen t then dl_TagLen t + 1
  else if bool_decide (dl_Delimiter t = []) then length (dl_TagAndValue t)
  else match Index (drop idx (dl_TagAndValue t)) (dl_Delimiter t) with
       | None => length (dl_TagAndValue t)
       | Some 0 => idx + length (dl_Delimiter t)
       | Some i => i + idx
       end.

Definition b64_NextBreak (t : DKIMTagBase64) (idx max : nat) : nat :=
  if idx =? 0 then b64_TagLen t
  else if idx =? b64_TagLen t then b64_TagLen t + 1
  else let end_ := length (b64_TagAndValue t) in
       if max <? end_ then max else end_.

(** The [for end < end_max] loop of [GetString]; [None] when the fuel runs
    out, which happens only if [NextBreak] returns [end] itself, where Go
    loops forever. *)
Fixpoint getstring_loop (fuel : nat) (nb : nat -> nat) (end_ end_max : nat) : option nat :=
  match fuel with
  | 0 => None
  | S f =>
      if end_ <? end_max then
        let idx := nb end_ in
        if idx <=? end_max then getstring_loop f nb idx end_max else Some end_
      else Some end_
  end.

(** The body of [GetString], shared by both implementations: from the
    tag-and-value [tv], the index [Idx] and [NextBreak(end, end_max)],
    returns [(chars, ok)] and the new [Idx].  [Idx <= len(tv)] always holds
    for the tags below, so the [nat] subtraction is Go's. *)
Definition GetString_body (tv : bytes) (Idx : nat) (nb : nat -> nat -> nat) (limit : nat)
    : option (bytes * bool * nat) :=
  let end_max := length tv in
  if end_max - Idx <=? limit then Some (drop Idx tv, true, end_max)
  else
    let end_max := if Idx + limit <? end_max then Idx + limit else end_max in
    match getstring_loop (S end_max) (fun e => nb e end_max) Idx end_max with
    | None => None
    | Some end_ =>
        if Idx <? end_ then Some (take (end_ - Idx) (drop Idx tv), true, end_)
        else Some ([], false, Idx)
    end.

Definition TagAndValue (t : DKIMTag) : bytes :=
  match t with TagDelim d => dl_TagAndValue d | TagBase64 b => b64_TagAndValue b end.

Definition tag_Idx (t : DKIMTag) : nat :=
  match t with TagDelim d => dl_Idx d | TagBase64 b => b64_Idx b end.

(** [t.Idx = i] *)
Definition set_Idx (t : DKIMTag) (i : nat) : DKIMTag :=
  match t with
  | TagDelim d => TagDelim {| dl_TagLen := dl_TagLen d; dl_TagAndValue := dl_TagAndValue d;
                              dl_Delimiter := dl_Delimiter d; dl_Idx := i |}
  | TagBase64 b => TagBase64 {| b64_TagLen := b64_TagLen b;
                                b64_TagAndValue := b64_TagAndValue b; b64_Idx := i |}
  end.

Definition Reset (t : DKIMTag) : DKIMTag := set_Idx t 0.

Definition Done (t : DKIMTag) : bool := tag_Idx t =? length (TagAndValue t).

Definition GetRemaining (t : DKIMTag) : bytes * DKIMTag :=
  (drop (tag_Idx t) (TagAndValue t), set_Idx t (length (TagAndValue t))).

Definition GetString (t : DKIMTag) (limit : nat) : option (bytes * bool * DKIMTag) :=
  let r := match t with
           | TagDelim d =>
               GetString_body (dl_TagAndValue d) (dl_Idx d) (fun e _ => delim_NextBreak d e) limit
           | TagBase64 b =>
               GetString_body (b64_TagAndValue b) (b64_Idx b) (b64_NextBreak b) limit
           end in
  match r with
  | Some (chars, ok, i) => Some (chars, ok, set_Idx t i)
  | None => None
  end.

Definition NewDKIMTagPlain (tag value : bytes) : DKIMTag :=
  TagDelim {| dl_TagLen := length tag; dl_TagAndValue := tag ++ bs "=" ++ value;
              dl_Delimiter := []; dl_Idx := 0 |}.

Definition NewDKIMTagDelim (tag : bytes) (values : list bytes) (delimiter : bytes) : DKIMTag :=
  TagDelim {| dl_TagLen := length tag; dl_TagAndValue := tag ++ bs "=" ++ join delimiter values;
              dl_Delimiter := delimiter; dl_Idx := 0 |}.

Definition NewDKIMTagBase64 (tag value : bytes) : DKIMTag :=
  TagBase64 {| b64_TagLen := length tag; b64_TagAndValue := tag ++ bs "=" ++ value;
               b64_Idx := 0 |}.

Record DKIMSignature := { Buf : bytes; LineLen : Z }.

(** The [for !tag.Done()] loop of [AddTag]; [None] when [GetString] does not
    return or the fuel runs out. *)
Fixpoint addtag_loop (fuel : nat) (sig : DKIMSignature) (tag : DKIMTag) : option DKIMSignature :=
  match fuel with
  | 0 => None
  | S f =>
      if Done tag then Some sig
      else
        let max_chars := (80 - LineLen sig - 1 - 2)%Z in
        if (max_chars <=? 0)%Z then
          addtag_loop f {| Buf := Buf sig ++ [CR; LF; SP]; LineLen := 1 |} tag
        else
          match GetString tag (Z.to_nat max_chars) with
          | None => None
          | Some (s, ok, tag1) =>
              if negb ok && (1 <? LineLen sig)%Z then
                addtag_loop f {| Buf := Buf sig ++ [CR; LF; SP]; LineLen := 1 |} tag1
              else
                let '(s, tag2) := if ok then (s, tag1) else GetRemaining tag1 in
                let sig1 := {| Buf := Buf sig ++ s; LineLen := LineLen sig + len s |} in
                let sig2 := if Done tag2
                            then {| Buf := Buf sig1 ++ bs ";"; LineLen := LineLen sig1 + 1 |}
                            else sig1 in
                addtag_loop f sig2 tag2
          end
  end.

(** Every round either consumes a byte of the tag or starts a new line
    after which the next round consumes one, so [2 * len + 2] rounds
    suffice. *)
Definition AddTag (sig : DKIMSignature) (tag : DKIMTag) : option DKIMSignature :=
  addtag_loop (2 * length (TagAndValue tag) + 2) sig (Reset tag).

Definition AddPlainTag (sig : DKIMSignature) (tag value : bytes) : option DKIMSignature :=
  AddTag sig (NewDKIMTagPlain tag value).

Definition AddDelimTag (sig : DKIMSignature) (tag : bytes) (values : list bytes) (delimiter : bytes)
    : option DKIMSignature :=
  AddTag sig (NewDKIMTagDelim tag values delimiter).

Definition AddBase64Tag (sig : DKIMSignature) (tag value : bytes) : option DKIMSignature :=
  AddTag sig (NewDKIMTagBase64 tag value).

Definition NewDKIMSignature : DKIMSignature :=
  {| Buf := headerFieldName ++ bs ": "; LineLen := (len headerFieldName + 2)%Z |}.

Definition tag_TagLen (t : DKIMTag) : nat :=
  match t with TagDelim d => dl_TagLen d | TagBase64 b => b64_TagLen b end.

(** The last byte seen after [a], starting from [prev]. *)
Definition last_or (prev : option ascii) (a : bytes) : option ascii :=
  match last a with Some x => Some x | None => prev end.

(** Rounds of the [AddTag] loop still needed: two per unconsumed byte,
    plus one for a line break when the line is not fresh. *)
Definition addtag_measure (sig : DKIMSignature) (tag : DKIMTag) : nat :=
  2 * (length (TagAndValue tag) - tag_Idx tag) + (if (LineLen sig <=? 1)%Z then 0 else 1).

(** One round of the [for i, kv := range h] loop of [scan_signatures]. *)
Definition scan_step (EqualFold : bytes -> bytes -> bool) (p : nat * bytes) : option signature :=
  let '(i, kv) := p in
  let '(k, v) := parseHeaderField kv in
  if EqualFold k headerFieldName then Some {| sig_i := i; sig_v := v |} else None.

(** * Properties *)

Example format_three :
  formatHeaderParams (<[bs "v" := bs "1"]> (<[bs "a" := bs "rsa-sha256"]>
                       (<[bs "d" := bs "example.org"]> ∅)))
  = bs " v=1; a=rsa-sha256; d=example.org;".
Proof. vm_compute. reflexivity. Qed.

Example parse_three :
  parse_ok (parseHeaderParams (bs " v=1; a= rsa-sha256 ;; d=example.org;"))
  = Some (<[bs "v" := bs "1"]> (<[bs "a" := bs "rsa-sha256"]>
                       (<[bs "d" := bs "example.org"]> ∅))).
Proof. vm_compute. reflexivity. Qed.


(** ** Byte-level helper facts *)

Lemma beq_true a b : beq a b = true <-> a = b.
Proof. unfold beq. apply bool_decide_eq_true. Qed.

Lemma beq_refl a : beq a a = true.
Proof. by apply beq_true. Qed.

Lemma cut_first_in sep s k v : cut_first sep s = Some (k, v) -> In sep s.
Proof.
  revert k. induction s as [|c s IH]; intros k H; simpl in H; [discriminate|].
  destruct (beq c sep) eqn:E.
  - apply beq_true in E. subst. left. reflexivity.
  - destruct (cut_first sep s) as [[a b]|] eqn:E2; [|discriminate].
    injection H as <- <-. right. by apply (IH a).
Qed.

Section TrimKeeps.
Variable x : ascii.
Hypothesis x_not_ascii_space : asciiSpace x = false.

Lemma trim_front_keeps sp2 sp3 :
  (forall a b, sp2 a b = true -> a <> x /\ b <> x) ->
  (forall a b c, sp3 a b c = true -> a <> x /\ b <> x /\ c <> x) ->
  forall s, In x s -> In x (trim_front sp2 sp3 s).
Proof.
  intros H2 H3 s. induction s as [s IH] using (induction_ltof1 _ (@length ascii)).
  unfold ltof in IH. destruct s as [|c s1]; [done|]. intros Hin. simpl.
  destruct (asciiSpace c) eqn:Ec.
  - apply IH; [simpl; lia|]. destruct Hin as [<-|Hin]; [congruence|done].
  - destruct s1 as [|c2 s2]; [done|].
    destruct (sp2 c c2) eqn:E2.
    + destruct (H2 _ _ E2) as [Hc Hc2]. apply IH; [simpl; lia|].
      destruct Hin as [<-|[<-|Hin]]; [congruence|congruence|done].
    + destruct s2 as [|c3 s3]; [done|].
      destruct (sp3 c c2 c3) eqn:E3; [|done].
      destruct (H3 _ _ _ E3) as (Hc & Hc2 & Hc3). apply IH; [simpl; lia|].
      destruct Hin as [<-|[<-|[<-|Hin]]]; congruence || done.
Qed.
End TrimKeeps.

Ltac bool_contra H :=
  simpl in H; repeat (rewrite ?andb_false_r, ?orb_false_r, ?andb_false_l, ?orb_false_l in H);
  discriminate.

Lemma eq_in_TrimSpace s : In "="%char s -> In "="%char (TrimSpace s).
Proof.
  intros H. unfold TrimSpace, TrimRightSpace, TrimLeftSpace.
  rewrite <- in_rev. apply trim_front_keeps; [reflexivity| | |].
  - intros a b E; split; intros ->; unfold space2 in E; bool_contra E.
  - intros a b c E; repeat split; intros ->; unfold space3 in E; bool_contra E.
  - rewrite <- in_rev. apply trim_front_keeps; [reflexivity| | |done].
    + intros a b E; split; intros ->; unfold space2 in E; bool_contra E.
    + intros a b c E; repeat split; intros ->; unfold space3 in E; bool_contra E.
Qed.

Lemma TrimSpace_eq_nonempty s k v : cut_first "="%char s = Some (k, v) -> TrimSpace s <> [].
Proof.
  intros H E. apply cut_first_in, eq_in_TrimSpace in H. rewrite E in H. exact H.
Qed.

Lemma parse_pairs_ref (l : list bytes) (acc : gmap bytes bytes) :
  parse_ok (parse_pairs l acc)
  = foldl (ref_step false) acc <$> mapM ref_pair (filter (fun seg => TrimSpace seg <> []) l).
Proof.
  revert acc. induction l as [|a l IH]; intros acc; [reflexivity|].
  simpl. unfold SplitN2. destruct (cut_first _ a) as [[k v]|] eqn:E.
  - rewrite IH, filter_cons_True by (eapply TrimSpace_eq_nonempty; eauto).
    simpl. replace (ref_pair a) with (Some (TrimSpace k, TrimSpace v))
      by (unfold ref_pair; rewrite E; reflexivity).
    simpl. destruct (mapM ref_pair _); reflexivity.
  - case_bool_decide as Hb.
    + rewrite filter_cons_False by (intros Hn; exact (Hn Hb)). apply IH.
    + rewrite filter_cons_True by exact Hb. simpl.
      replace (ref_pair a) with (@None (bytes * bytes))
        by (unfold ref_pair; rewrite E; reflexivity).
      reflexivity.
Qed.

(** Claim C2 (as amended): parsing a tag list is the reference tag-list
    reading (split on [;], blank segments skipped, a non-blank segment
    without [=] fails the parse, cut at the first [=], name and value
    trimmed) in which a repeated tag name keeps its LAST value. *)
Theorem parseHeaderParams_spec_last_wins (s : bytes) :
  parse_ok (parseHeaderParams s) = tag_list_ref false s.
Proof. unfold parseHeaderParams, tag_list_ref, tag_segments. apply parse_pairs_ref. Qed.

(** Claim C2 (counterexample): on [a=1;a=2] the parser keeps [a=2], while
    the first-occurrence-wins reading keeps [a=1]. *)
Lemma parseHeaderParams_not_first_wins :
  parse_ok (parseHeaderParams (bs "a=1;a=2")) <> tag_list_ref true (bs "a=1;a=2").
Proof.
  intros H. apply (f_equal (fun o => o ≫= (fun m : gmap bytes bytes => m !! bs "a"))) in H.
  vm_compute in H. discriminate.
Qed.

(** ** Formatting then parsing a tag list *)

Lemma Split_app_sep sep x y :
  ~ In sep x -> Split sep (x ++ sep :: y) = x :: Split sep y.
Proof.
  induction x as [|c x IH]; intros Hn; simpl.
  - by rewrite beq_refl.
  - rewrite IH by (intros H; apply Hn; right; exact H).
    destruct (beq c sep) eqn:E; [|reflexivity].
    apply beq_true in E. subst. exfalso. apply Hn. left. reflexivity.
Qed.

Lemma cut_first_app sep x y :
  ~ In sep x -> cut_first sep (x ++ sep :: y) = Some (x, y).
Proof.
  induction x as [|c x IH]; intros Hn; simpl.
  - by rewrite beq_refl.
  - rewrite IH by (intros H; apply Hn; right; exact H).
    destruct (beq c sep) eqn:E; [|reflexivity].
    apply beq_true in E. subst. exfalso. apply Hn. left. reflexivity.
Qed.

Lemma trim_front_ws_prefix sp2 sp3 w s :
  Forall (fun c => asciiSpace c = true) w -> trim_front sp2 sp3 (w ++ s) = trim_front sp2 sp3 s.
Proof. induction 1 as [|c w Hc _ IH]; [reflexivity|]. simpl. by rewrite Hc. Qed.

Lemma TrimSpace_ws_prefix w s :
  Forall (fun c => asciiSpace c = true) w -> TrimSpace (w ++ s) = TrimSpace s.
Proof. intros H. unfold TrimSpace, TrimLeftSpace. by rewrite trim_front_ws_prefix. Qed.

Lemma TrimSpace_nil : TrimSpace [] = [].
Proof. reflexivity. Qed.

Lemma fmt_loop_parse (m : gmap bytes bytes) (ks : list bytes) (avail : Z) (acc : gmap bytes bytes) :
  Forall (fun k => exists v, m !! k = Some v /\ tag_ok k v) ks ->
  parse_pairs (Split ";"%char (fmt_loop m ks avail)) acc = (insert_keys m acc ks, None).
Proof.
  intros Hks. revert avail acc.
  induction Hks as [|k ks [v [Hv (Hk1 & Hk2 & Hv1 & Hk3 & Hv2 & Hlen)]] _ IH]; intros avail acc.
  - reflexivity.
  - assert (Hidx : idx m k = v) by (unfold idx; by rewrite Hv).
    cbn [fmt_loop]. rewrite Hidx.
    set (chars := (len k + len v + 3)%Z).
    assert (Hsplit : forall pre, pre = [] \/ pre = crlf ->
      forall avail2, (0 <= avail2)%Z ->
      parse_pairs (Split ";"%char (pre ++ [SP] ++
        (if (avail2 <? 0)%Z then
           (if bool_decide (k = bs "h") then wrapHeaders v
            else foldHeaderField (k ++ bs "=" ++ v ++ bs ";"))
         else k ++ bs "=" ++ v ++ bs ";") ++ fmt_loop m ks avail2)) acc
      = (insert_keys m acc (k :: ks), None)).
    { intros pre Hpre avail2 Ha2.
      replace (avail2 <? 0)%Z with false by lia. cbv beta iota.
      change (bs "=") with ["="%char] in *. change (bs ";") with [";"%char] in *.
      assert (Hw : Forall (fun c => asciiSpace c = true) (pre ++ [SP]))
        by (destruct Hpre as [-> | ->]; repeat constructor).
      assert (Hsc : ~ In ";"%char (pre ++ [SP] ++ k ++ bs "=" ++ v)).
      { intros H. repeat (apply in_app_or in H; destruct H as [H|H]);
          try (destruct Hpre as [-> | ->]; simpl in H; intuition discriminate);
          try (simpl in H; intuition discriminate); auto. }
      assert (Heq : ~ In "="%char (pre ++ [SP] ++ k)).
      { intros H. repeat (apply in_app_or in H; destruct H as [H|H]);
          try (destruct Hpre as [-> | ->]; simpl in H; intuition discriminate);
          try (simpl in H; intuition discriminate); auto. }
      replace (pre ++ [SP] ++ (k ++ ["="%char] ++ v ++ [";"%char]) ++ fmt_loop m ks avail2)
        with ((pre ++ [SP] ++ k ++ ["="%char] ++ v) ++ ";"%char :: fmt_loop m ks avail2)
        by (rewrite <- !app_assoc; reflexivity).
      rewrite Split_app_sep by exact Hsc.
      simpl parse_pairs. unfold SplitN2.
      replace (pre ++ SP :: k ++ "="%char :: v) with (((pre ++ [SP]) ++ k) ++ "="%char :: v)
        by (rewrite <- !app_assoc; reflexivity).
      rewrite cut_first_app by (rewrite <- app_assoc; exact Heq).
      rewrite TrimSpace_ws_prefix by exact Hw.
      rewrite Hk3, Hv2, IH. unfold insert_keys. simpl. by rewrite Hidx. }
    destruct ((avail <? chars)%Z || bool_decide (k = bs "b")) eqn:Ec.
    + apply Hsplit; [by right|]. unfold chars. lia.
    + apply Hsplit; [by left|]. apply orb_false_iff in Ec as [Ec _]. lia.
Qed.

Lemma insert_keys_lookup (m acc : gmap bytes bytes) (ks : list bytes) (j : bytes) :
  insert_keys m acc ks !! j = if bool_decide (j ∈ ks) then Some (idx m j) else acc !! j.
Proof.
  unfold insert_keys. revert acc. induction ks as [|k ks IH]; intros acc; simpl.
  { reflexivity. }
  rewrite IH. case_bool_decide as H1; case_bool_decide as H2;
    rewrite ?elem_of_cons in H2.
  - reflexivity.
  - exfalso. tauto.
  - destruct H2 as [->|H2]; [|tauto]. by rewrite lookup_insert_eq.
  - rewrite lookup_insert_ne; [done|]. intros ->. tauto.
Qed.

Lemma insert_sorted_in lt x l j : In j (insert_sorted lt x l) <-> j = x \/ In j l.
Proof.
  induction l as [|y l IH]; simpl; [naive_solver|].
  destruct (lt x y); simpl; [naive_solver|]. rewrite IH. naive_solver.
Qed.

Lemma sort_by_in lt l j : In j (sort_by lt l) <-> In j l.
Proof.
  induction l as [|x l IH]; simpl; [tauto|]. rewrite insert_sorted_in, IH. naive_solver.
Qed.

Lemma keys_in (m : gmap bytes bytes) j : In j (map fst (map_to_list m)) <-> is_Some (m !! j).
Proof.
  rewrite in_map_iff. split.
  - intros [[k v] [<- Hin]]. simpl. exists v.
    apply elem_of_map_to_list, list_elem_of_In. exact Hin.
  - intros [v Hv]. exists (j, v). split; [done|].
    apply list_elem_of_In, elem_of_map_to_list. exact Hv.
Qed.

Lemma fmt_keys_in (m : gmap bytes bytes) j : In j (fmt_keys m) <-> is_Some (m !! j).
Proof.
  unfold fmt_keys. rewrite in_app_iff, sort_by_in, <- list_elem_of_In,
    list_elem_of_filter, list_elem_of_In, keys_in.
  destruct (existsb _ _) eqn:E.
  - apply existsb_exists in E as [x [Hx Hb]]. apply bool_decide_eq_true in Hb. subst x.
    apply keys_in in Hx. simpl.
    destruct (decide (j = bs "b")) as [->|Hne]; [tauto|]. naive_solver.
  - simpl. split; [tauto|]. intros Hj. left. split; [|done]. intros ->.
    assert (existsb (fun k => bool_decide (k = bs "b")) (map fst (map_to_list m)) = true)
      as E'.
    { apply existsb_exists. exists (bs "b"). split; [by apply keys_in|].
      by apply bool_decide_eq_true. }
    congruence.
Qed.

(** Claim C1 (as amended): for a tag map whose tags are all [tag_ok] (no
    [;] in names or values, no [=] in names, names and values already
    trimmed, and [len(k)+len(v)+3 <= 75], so that no value is folded inside),
    parsing the formatted tag list succeeds and gives back the same map. *)
Theorem format_parse_roundtrip (m : gmap bytes bytes) :
  map_Forall tag_ok m ->
  parse_ok (parseHeaderParams (formatHeaderParams m)) = Some m.
Proof.
  intros Hok. unfold parseHeaderParams, formatHeaderParams.
  rewrite fmt_loop_parse.
  - simpl. f_equal. apply map_eq. intros j. rewrite insert_keys_lookup.
    case_bool_decide as Hj; rewrite list_elem_of_In in Hj.
    + apply fmt_keys_in in Hj as [v Hv]. rewrite Hv. unfold idx. by rewrite Hv.
    + rewrite lookup_empty. destruct (m !! j) as [w|] eqn:E; [|done].
      exfalso. apply Hj, fmt_keys_in. by exists w.
  - apply Forall_forall. intros k Hk. apply list_elem_of_In, fmt_keys_in in Hk as [v Hv].
    exists v. split; [done|]. exact (Hok k v Hv).
Qed.

(** Claim C1 (counterexample): the one-tag map [z] = 80 times [a] (a
    well-formed tag: no [;] or [=], nothing to trim) is formatted with its
    value folded by a CRLF SP after 75 bytes of [z=aaa...]; the parser keeps
    that CRLF SP inside the value and returns [z] = 73 times [a], CRLF SP,
    7 times [a], not the map formatted.  The bound of [tag_ok] cannot be
    raised for the [h] tag: [h] = [a:] and 70 times [b] ([len(k)+len(v)+3 =
    76]) is wrapped at its colon and does not round-trip.  A longer tag can
    still round-trip when the fold falls next to [;]: [z] = 73 times [a]. *)
Lemma format_parse_folded_value :
  parse_ok (parseHeaderParams (formatHeaderParams (<[bs "z" := repeat "a"%char 80]> ∅)))
    = Some (<[bs "z" := repeat "a"%char 73 ++ [CR; LF; SP] ++ repeat "a"%char 7]> ∅)
  /\ repeat "a"%char 73 ++ [CR; LF; SP] ++ repeat "a"%char 7 <> repeat "a"%char 80
  /\ parse_ok (parseHeaderParams (formatHeaderParams (<[bs "h" := bs "a:" ++ repeat "b"%char 70]> ∅)))
     <> Some (<[bs "h" := bs "a:" ++ repeat "b"%char 70]> ∅)
  /\ parse_ok (parseHeaderParams (formatHeaderParams (<[bs "z" := repeat "a"%char 73]> ∅)))
     = Some (<[bs "z" := repeat "a"%char 73]> ∅).
Proof.
  split; [vm_compute; reflexivity|].
  split; [intros H; apply (f_equal (@length _)) in H; vm_compute in H; discriminate|].
  split; [|vm_compute; reflexivity].
  intros H. apply (f_equal (fun o => o ≫= (fun m : gmap bytes bytes => m !! bs "h"))) in H.
  vm_compute in H. congruence.
Qed.

(** ** The header picker *)

Lemma pick_scan_spec ToLower (K : bytes) (hs : list bytes) (a : nat) :
  pick_scan ToLower K hs a = filter (fun kv => ToLower (parseHeaderField kv).1 = K) hs !! a.
Proof.
  revert a. induction hs as [|kv hs IH]; intros a; [done|]. simpl.
  rewrite filter_cons. case_bool_decide as H; rewrite decide_bool_decide, ?bool_decide_true,
    ?bool_decide_false by done; [|apply IH].
  destruct a; [done|]. apply IH.
Qed.

Section PickerProof.
Variable ToLower : bytes -> bytes.
Variable h : list bytes.

Let M (K : bytes) : list bytes :=
  filter (fun kv => ToLower (parseHeaderField kv).1 = K) (rev h).

Lemma Pick_all_gen (keys : list bytes) :
  forall (p : headerPicker) (c : bytes -> nat),
    ph p = h ->
    (forall K, default 0 (picked p !! K) = Nat.min (c K) (length (M K))) ->
    forall j key, keys !! j = Some key ->
    Pick_all ToLower p keys !! j
    = Some (default [] (M (ToLower key) !!
              (c (ToLower key)
               + length (filter (fun k => ToLower k = ToLower key) (take j keys))))).
Proof.
  induction keys as [|k ks IH]; intros p c Hph Hinv j key Hj; [done|].
  set (K := ToLower k).
  assert (Hat := Hinv K).
  cbn [Pick_all]. unfold Pick. fold K. rewrite Hph, pick_scan_spec. fold (M K).
  destruct (decide (c K < length (M K))) as [Hlt|Hge].
  - rewrite Nat.min_l in Hat by lia. rewrite Hat.
    destruct (M K !! c K) as [kv|] eqn:Ekv;
      [|apply lookup_ge_None_1 in Ekv; lia].
    destruct j as [|j'].
    + simpl in Hj. injection Hj as <-. simpl. fold K. rewrite Nat.add_0_r, Ekv. done.
    + simpl in Hj |- *.
      unshelve erewrite (IH {| ph := h; picked := <[K:=S (c K)]> (picked p) |} (fun K' => if decide (K' = K) then S (c K) else c K') eq_refl _ j' key Hj).
      2: { rewrite filter_cons. f_equal. f_equal. f_equal. unfold K.
           destruct (decide (ToLower key = ToLower k)) as [E1|E1], (decide (ToLower k = ToLower key));
             simpl; try congruence; try rewrite E1; lia. }
      intros K'. cbn [picked]. cbv beta. destruct (decide (K' = K)) as [->|Hne].
      -- rewrite lookup_insert_eq. unfold default, id. lia.
      -- rewrite lookup_insert_ne by congruence. apply Hinv.
  - rewrite Nat.min_r in Hat by lia. rewrite Hat.
    rewrite (proj2 (lookup_ge_None (M K) (length (M K))) ltac:(lia)).
    destruct j as [|j'].
    + simpl in Hj. injection Hj as <-. simpl. fold K. rewrite Nat.add_0_r.
      rewrite (proj2 (lookup_ge_None (M K) (c K)) ltac:(lia)). done.
    + simpl in Hj |- *.
      unshelve erewrite (IH _ (fun K' => if decide (K' = K) then S (c K) else c K') Hph _ j' key Hj).
      2: { rewrite filter_cons. f_equal. f_equal. f_equal. unfold K.
           destruct (decide (ToLower key = ToLower k)) as [E1|E1], (decide (ToLower k = ToLower key));
             simpl; try congruence; try rewrite E1; lia. }
      intros K'. cbv beta. destruct (decide (K' = K)) as [->|Hne].
      -- rewrite Hat. lia.
      -- apply Hinv.
Qed.
End PickerProof.

(** Claim C8: on a fresh picker over [h], the call number [j] of a sequence
    of [Pick] calls returns, for its key, the occurrence number [i] (counted
    from 0) of the matching fields taken from the bottom of [h] upwards,
    where [i] is the number of earlier calls with the same key (up to
    [ToLower]); once the occurrences are used up it returns the empty
    string.  So the i-th call with a key yields the i-th match from the
    bottom, whatever calls with other keys come in between. *)
Theorem Pick_successive_from_bottom (ToLower : bytes -> bytes) (h keys : list bytes)
    (j : nat) (key : bytes) :
  keys !! j = Some key ->
  Pick_all ToLower (newHeaderPicker h) keys !! j
  = Some (default [] (picker_matches ToLower h key !!
            length (filter (fun k => ToLower k = ToLower key) (take j keys)))).
Proof.
  intros Hj. unfold picker_matches.
  apply (Pick_all_gen ToLower h keys (newHeaderPicker h) (fun _ => 0) eq_refl); [|exact Hj].
  intros K. reflexivity.
Qed.

Lemma Pick_successive_from_bottom_witness :
  [bs "From"; bs "To"; bs "From"] !! 2 = Some (bs "From") /\
  Pick_all id (newHeaderPicker [bs "From: a"; bs "To: b"; bs "From: c"])
    [bs "From"; bs "To"; bs "From"] !! 2
  = Some (default [] (picker_matches id [bs "From: a"; bs "To: b"; bs "From: c"] (bs "From") !!
            length (filter (fun k => id k = id (bs "From")) (take 2 [bs "From"; bs "To"; bs "From"])))).
Proof.
  split; [reflexivity|].
  apply Pick_successive_from_bottom. reflexivity.
Defined.

(** ** Reading the header *)

Lemma cut_first_none sep s : ~ In sep s -> cut_first sep s = None.
Proof.
  induction s as [|c s IH]; intros Hn; [reflexivity|]. simpl.
  destruct (beq c sep) eqn:E.
  - apply beq_true in E. subst. exfalso. apply Hn. left. reflexivity.
  - rewrite IH; [reflexivity|]. intros H. apply Hn. right. exact H.
Qed.

Lemma strip_cr_snoc l : strip_cr (l ++ [CR]) = l.
Proof. unfold strip_cr. rewrite last_snoc, beq_refl. apply removelast_last. Qed.

Lemma ReadLine_line l rest :
  ~ In LF l -> ReadLine (l ++ crlf ++ rest) = Some (l, rest).
Proof.
  intros Hn. unfold ReadLine.
  replace (l ++ crlf ++ rest) with ((l ++ [CR]) ++ LF :: rest)
    by (rewrite <- app_assoc; reflexivity).
  rewrite cut_first_app, strip_cr_snoc; [reflexivity|].
  rewrite in_app_iff. intros [H|[H|[]]]; [exact (Hn H)|discriminate].
Qed.

Lemma readHeader_loop_lines ls rest h fuel :
  Forall (fun l => l <> [] /\ ~ In LF l) ls -> length ls < fuel ->
  readHeader_loop fuel (header_lines ls ++ rest) h
  = readHeader_loop (fuel - length ls) rest (foldl header_step h ls).
Proof.
  revert h fuel. induction ls as [|l ls IH]; intros h fuel Hok Hf.
  - simpl. by rewrite Nat.sub_0_r.
  - inversion Hok as [|? ? [Hne Hn] Hok']; subst.
    destruct fuel as [|f]; [simpl in Hf; lia|].
    unfold header_lines. cbn [map concat]. rewrite <- app_assoc, <- app_assoc.
    cbn [readHeader_loop]. rewrite ReadLine_line by exact Hn.
    destruct l as [|c l']; [congruence|].
    fold (header_lines ls).
    replace (bool_decide (h <> []) && (beq c SP || beq c HTAB))
      with (bool_decide (h <> []) && starts_wsp (c :: l')) by reflexivity.
    assert (Hstep : (if bool_decide (h <> []) && starts_wsp (c :: l')
                     then readHeader_loop f (header_lines ls ++ rest) (append_last h ((c :: l') ++ crlf))
                     else readHeader_loop f (header_lines ls ++ rest) (h ++ [(c :: l') ++ crlf]))
                    = readHeader_loop f (header_lines ls ++ rest) (header_step h (c :: l')))
      by (unfold header_step; destruct (_ && _); reflexivity).
    rewrite Hstep, IH by (simpl in Hf; first [exact Hok' | lia]).
    reflexivity.
Qed.

Lemma header_lines_app xs ys : header_lines (xs ++ ys) = header_lines xs ++ header_lines ys.
Proof. unfold header_lines. by rewrite map_app, concat_app. Qed.

Lemma header_lines_one l : header_lines [l] = l ++ crlf.
Proof. unfold header_lines. simpl. by rewrite app_nil_r. Qed.

Lemma header_step_groups ls :
  exists groups,
    foldl header_step [] ls = map header_lines groups /\
    concat groups = ls /\
    Forall (fun g => g <> [] /\ Forall (fun l => starts_wsp l = true) (tail g)) groups /\
    Forall (fun g => starts_wsp (hd [] g) = false) (drop 1 groups).
Proof.
  induction ls as [|l ls IH] using rev_ind.
  - exists []. repeat split; constructor.
  - destruct IH as (gs & Hf & Hc & Hg & Hh).
    rewrite foldl_app, Hf. cbn [foldl]. unfold header_step.
    destruct (bool_decide (map header_lines gs <> [])) eqn:Ene; cbn [andb];
      [destruct (starts_wsp l) eqn:Ew|].
    + (* continuation line: joins the last group *)
      apply bool_decide_eq_true in Ene.
      destruct gs as [|g0 gs0] using rev_ind; [contradiction|]. clear IHgs0.
      rename g0 into g. rename gs0 into gs'.
      apply Forall_app in Hg as [Hg' Hg1]. inversion Hg1 as [|? ? [Hgne Hgt] _]; subst.
      exists (gs' ++ [g ++ [l]]). split; [|split; [|split]].
      * rewrite !map_app. unfold append_last. cbn [map].
        rewrite last_snoc, removelast_last, header_lines_app, header_lines_one. reflexivity.
      * rewrite !concat_app. cbn [concat]. rewrite !app_nil_r, app_assoc. reflexivity.
      * apply Forall_app. split; [exact Hg'|]. constructor; [|constructor].
        split; [destruct g; discriminate|].
        destruct g as [|x g]; [contradiction|]. cbn [tail app].
        apply Forall_app. split; [exact Hgt|]. constructor; [exact Ew|constructor].
      * destruct gs' as [|y ys]; [constructor|].
        cbn [drop app] in Hh |- *. apply Forall_app in Hh as [Hh1 Hh2].
        apply Forall_app. split; [exact Hh1|]. inversion Hh2; subst.
        constructor; [|constructor].
        destruct g as [|x g]; [contradiction|]. assumption.
    + (* a new field after existing ones *)
      apply bool_decide_eq_true in Ene.
      exists (gs ++ [[l]]). split; [|split; [|split]].
      * rewrite map_app. cbn [map]. by rewrite header_lines_one.
      * rewrite concat_app, <- Hc. reflexivity.
      * apply Forall_app. split; [exact Hg|]. constructor; [|constructor].
        split; [discriminate|constructor].
      * destruct gs as [|y ys]; [contradiction|].
        cbn [drop app] in Hh |- *. apply Forall_app. split; [exact Hh|].
        constructor; [exact Ew|constructor].
    + (* the first field *)
      apply bool_decide_eq_false in Ene.
      destruct gs as [|y ys]; [|exfalso; apply Ene; discriminate].
      exists [[l]]. simpl in Hc. subst ls. split; [|split; [|split]].
      * cbn [map]. by rewrite header_lines_one.
      * reflexivity.
      * constructor; [|constructor]. split; [discriminate|constructor].
      * constructor.
Qed.

Lemma header_lines_length ls : length ls <= length (header_lines ls).
Proof.
  induction ls as [|l ls IH]; [simpl; lia|].
  unfold header_lines in *. cbn [map concat]. rewrite !length_app. simpl. lia.
Qed.

Lemma readHeader_loop_eof f h rest :
  ~ In LF rest -> exists h' msg, readHeader_loop f rest h = inr (h', msg).
Proof.
  intros Hn. destruct f as [|f]; [simpl; eauto|].
  cbn [readHeader_loop]. unfold ReadLine. rewrite cut_first_none by exact Hn.
  destruct rest as [|c r]; [eauto|].
  destruct (_ && _); (destruct f; simpl; eauto).
Qed.

(** Claim C9 (counterexample): for a field line ended by a bare LF the
    field [readHeader] returns ends in CR LF, so it is not the raw bytes
    read from the input. *)
Lemma readHeader_bare_lf_not_raw :
  readHeader (bs "From: a" ++ [LF; LF] ++ bs "body") = inl ([bs "From: a" ++ crlf], bs "body")
  /\ bs "From: a" ++ crlf <> bs "From: a" ++ [LF].
Proof.
  split; [vm_compute; reflexivity|].
  intros H. apply (f_equal (@length _)) in H. vm_compute in H. discriminate.
Qed.

Lemma concat_map_header_lines gs : concat (map header_lines gs) = header_lines (concat gs).
Proof.
  induction gs as [|g gs IH]; [reflexivity|].
  cbn [map concat]. rewrite IH, header_lines_app. reflexivity.
Qed.

Lemma ReadLine_raw l rest :
  ~ In LF l -> ReadLine (l ++ [LF] ++ rest) = Some (strip_cr l, rest).
Proof. intros Hn. unfold ReadLine. cbn [app]. rewrite cut_first_app by exact Hn. reflexivity. Qed.

Lemma raw_lines_length raw :
  Forall (fun l => strip_cr l <> []) raw -> 2 * length raw <= length (raw_lines raw).
Proof.
  induction raw as [|l raw IH]; intros Hok; [simpl; lia|].
  inversion Hok as [|? ? Hl Hok']; subst.
  unfold raw_lines in *. cbn [map concat]. rewrite !length_app. cbn [length].
  specialize (IH Hok'). destruct l as [|c l]; [done|]. cbn [length]. lia.
Qed.

Lemma readHeader_loop_raw raw rest h fuel :
  Forall (fun l => ~ In LF l /\ strip_cr l <> []) raw -> length raw < fuel ->
  readHeader_loop fuel (raw_lines raw ++ rest) h
  = readHeader_loop (fuel - length raw) rest (foldl header_step h (map strip_cr raw)).
Proof.
  revert h fuel. induction raw as [|l raw IH]; intros h fuel Hok Hf.
  - simpl. by rewrite Nat.sub_0_r.
  - inversion Hok as [|? ? [Hn Hne] Hok']; subst.
    destruct fuel as [|f]; [simpl in Hf; lia|].
    unfold raw_lines. cbn [map concat]. rewrite <- !app_assoc.
    cbn [readHeader_loop]. rewrite ReadLine_raw by exact Hn.
    fold (raw_lines raw).
    destruct (strip_cr l) as [|c l'] eqn:Es; [congruence|].
    assert (Hstep : (if bool_decide (h <> []) && (beq c SP || beq c HTAB)
                     then readHeader_loop f (raw_lines raw ++ rest) (append_last h ((c :: l') ++ crlf))
                     else readHeader_loop f (raw_lines raw ++ rest) (h ++ [(c :: l') ++ crlf]))
                    = readHeader_loop f (raw_lines raw ++ rest) (header_step h (c :: l')))
      by (unfold header_step; destruct (_ && _); reflexivity).
    rewrite Hstep, IH by (simpl in Hf; first [exact Hok' | lia]).
    reflexivity.
Qed.

Lemma header_lines_strip_cr raw :
  Forall (fun l => last l = Some CR) raw -> header_lines (map strip_cr raw) = raw_lines raw.
Proof.
  induction raw as [|l raw IH]; intros Hok; [reflexivity|].
  inversion Hok as [|? ? Hl Hok']; subst.
  unfold header_lines, raw_lines in *. cbn [map concat]. rewrite IH by exact Hok'.
  f_equal. unfold strip_cr. rewrite Hl, beq_refl.
  destruct (exists_last (l := l)) as (l0 & x & ->); [intros ->; discriminate|].
  rewrite last_snoc in Hl. injection Hl as ->.
  rewrite removelast_last, <- app_assoc. reflexivity.
Qed.

(** Claim C9 (amended): [readHeader] reads the input as lines, the contents
    of a line being its bytes before the LF with one CR right before the LF
    removed.  For lines with non-empty contents and then an empty line ([LF]
    or [CR LF]) and a rest, it returns the rest unread and one field per run
    of consecutive lines: every line after the first of a run starts with SP
    or HTAB, every run but the first starts with a line that does not (a
    continuation line is appended to the previous field), and a field is the
    contents of its lines each followed by CRLF, whatever line ending the
    input used.  When every line ends in CRLF the fields together are exactly
    the header bytes read.  If the input ends, after such lines, with bytes
    containing no LF (the empty line never comes), [readHeader] returns an
    error. *)
Theorem readHeader_raw_fields (raw : list bytes) :
  Forall (fun l => (LF ∉ l) /\ strip_cr l <> []) raw ->
  (forall sep body, (sep = [] \/ sep = [CR]) ->
   exists groups,
     readHeader (raw_lines raw ++ sep ++ [LF] ++ body) = inl (map header_lines groups, body) /\
     concat groups = map strip_cr raw /\
     Forall (fun g => g <> [] /\ Forall (fun l => starts_wsp l = true) (tail g)) groups /\
     Forall (fun g => starts_wsp (hd [] g) = false) (drop 1 groups) /\
     (Forall (fun l => last l = Some CR) raw ->
        concat (map header_lines groups) = raw_lines raw)) /\
  (forall rest, LF ∉ rest ->
     exists h msg, readHeader (raw_lines raw ++ rest) = inr (h, msg)).
Proof.
  intros Hok.
  assert (Hok' : Forall (fun l => ~ In LF l /\ strip_cr l <> []) raw).
  { eapply Forall_impl; [exact Hok|]. intros l [H1 H2]. split; [|exact H2].
    rewrite <- list_elem_of_In. exact H1. }
  assert (Hlen : Forall (fun l => strip_cr l <> []) raw)
    by (eapply Forall_impl; [exact Hok'|]; intros l [_ H]; exact H).
  pose proof (raw_lines_length raw Hlen) as HL.
  split.
  - intros sep body Hsep.
    destruct (header_step_groups (map strip_cr raw)) as (gs & Hf & Hc & Hg & Hh).
    exists gs. split; [|split; [exact Hc|split; [exact Hg|split; [exact Hh|]]]].
    + unfold readHeader. rewrite readHeader_loop_raw
        by (first [exact Hok' | rewrite length_app; lia]).
      rewrite Hf.
      destruct (S (length (raw_lines raw ++ sep ++ [LF] ++ body)) - length raw) as [|f] eqn:Ef.
      * rewrite length_app in Ef. lia.
      * cbn [readHeader_loop].
        destruct Hsep as [->| ->]; [reflexivity|].
        unfold ReadLine. reflexivity.
    + intros Hcr. rewrite concat_map_header_lines, Hc. apply header_lines_strip_cr. exact Hcr.
  - intros rest Hn. unfold readHeader.
    rewrite readHeader_loop_raw by (first [exact Hok' | rewrite length_app; lia]).
    apply readHeader_loop_eof. rewrite <- list_elem_of_In. exact Hn.
Qed.

Lemma readHeader_raw_fields_witness :
  Forall (fun l => (LF ∉ l) /\ strip_cr l <> []) [bs "From: a" ++ [CR]; bs " b"; bs "To: c" ++ [CR]] /\
  ((forall sep body, (sep = [] \/ sep = [CR]) ->
    exists groups,
      readHeader (raw_lines [bs "From: a" ++ [CR]; bs " b"; bs "To: c" ++ [CR]] ++ sep ++ [LF] ++ body)
        = inl (map header_lines groups, body) /\
      concat groups = map strip_cr [bs "From: a" ++ [CR]; bs " b"; bs "To: c" ++ [CR]] /\
      Forall (fun g => g <> [] /\ Forall (fun l => starts_wsp l = true) (tail g)) groups /\
      Forall (fun g => starts_wsp (hd [] g) = false) (drop 1 groups) /\
      (Forall (fun l => last l = Some CR) [bs "From: a" ++ [CR]; bs " b"; bs "To: c" ++ [CR]] ->
         concat (map header_lines groups) = raw_lines [bs "From: a" ++ [CR]; bs " b"; bs "To: c" ++ [CR]])) /\
   (forall rest, LF ∉ rest ->
      exists h msg, readHeader (raw_lines [bs "From: a" ++ [CR]; bs " b"; bs "To: c" ++ [CR]] ++ rest)
                    = inr (h, msg))).
Proof.
  assert (H : Forall (fun l => (LF ∉ l) /\ strip_cr l <> [])
                [bs "From: a" ++ [CR]; bs " b"; bs "To: c" ++ [CR]])
    by (apply (bool_decide_unpack _); vm_compute; reflexivity).
  split; [exact H | exact (readHeader_raw_fields _ H)].
Defined.

(** ** The simple body canonicalizer *)

Lemma fixCRLF_go_not_lf_start prev s rest : prev = None -> fixCRLF_go prev s <> LF :: rest.
Proof.
  intros ->. destruct s as [|c s]; [discriminate|]. simpl.
  destruct (beq c LF) eqn:E; simpl; [discriminate|].
  intros H. injection H as H _. subst c. rewrite beq_refl in E. discriminate.
Qed.

Lemma fixCRLF_not_lf_start s rest : fixCRLF s <> LF :: rest.
Proof. apply fixCRLF_go_not_lf_start. reflexivity. Qed.

Lemma keep_crlf_spec b fuel e :
  e <= fuel ->
  keep_crlf fuel b e <= e /\
  (keep_crlf fuel b e < 2 \/
   ~ (at_ b (keep_crlf fuel b e - 2) = CR /\ at_ b (keep_crlf fuel b e - 1) = LF)).
Proof.
  revert e. induction fuel as [|f IH]; intros e He.
  - simpl. lia.
  - cbn [keep_crlf].
    destruct ((2 <=? e) && beq (at_ b (e - 2)) CR && beq (at_ b (e - 1)) LF) eqn:E.
    + apply andb_prop in E as [E E3]. apply andb_prop in E as [E1 E2].
      apply Nat.leb_le in E1. destruct (IH (e - 2)) as [H1 H2]; [lia|]. split; [lia|exact H2].
    + split; [lia|].
      destruct (decide (e < 2)) as [Hl|Hl]; [left; exact Hl|right].
      intros [H1 H2]. rewrite H1, H2, !beq_refl in E.
      rewrite (proj2 (Nat.leb_le 2 e)) in E by lia. discriminate.
Qed.

Lemma not_crlf_suffix_app E w :
  ~ crlf `suffix_of` E -> w <> [] -> hd_error w <> Some LF -> (forall q, w <> q ++ crlf) ->
  ~ crlf `suffix_of` (E ++ w).
Proof.
  intros HE Hne Hhd Hq [p Hp].
  destruct w as [|y w' _] using rev_ind; [contradiction|].
  change crlf with ([CR] ++ [LF]) in Hp. rewrite app_assoc, app_assoc in Hp.
  apply app_inj_tail in Hp as [Hp ->].
  destruct w' as [|z w'' _] using rev_ind.
  - simpl in Hhd. contradiction.
  - rewrite app_assoc in Hp. apply app_inj_tail in Hp as [_ ->].
    apply (Hq w''). rewrite <- app_assoc. reflexivity.
Qed.

Lemma take_crlf_at b e q :
  e <= length b -> take e b = q ++ crlf ->
  2 <= e /\ at_ b (e - 2) = CR /\ at_ b (e - 1) = LF.
Proof.
  intros Hl Ht.
  assert (Hlen : length (take e b) = e) by (rewrite length_take; lia).
  rewrite Ht, length_app in Hlen. simpl in Hlen.
  assert (Hb : b = q ++ CR :: LF :: drop e b) by (rewrite <- (take_drop e b) at 1; rewrite Ht, <- app_assoc; reflexivity).
  split; [lia|]. unfold at_. rewrite Hb.
  replace (e - 2) with (length q) by lia. rewrite nth_middle. split; [reflexivity|].
  rewrite app_nth2 by lia. replace (e - 1 - length q) with 1 by lia. reflexivity.
Qed.

Lemma simple_Write_no_crlf_end c x E :
  ~ crlf `suffix_of` E -> ~ crlf `suffix_of` (E ++ concat (simple_Write c x).2).
Proof.
  intros HE. unfold simple_Write. cbn [snd].
  set (b := fixCRLF (s_crlfBuf c ++ x)).
  set (e1 := if (0 <? length b) && beq (at_ b (length b - 1)) CR then length b - 1 else length b).
  assert (He1 : e1 <= length b) by (unfold e1; destruct (_ && _); lia).
  destruct (keep_crlf_spec b e1 e1 (le_n _)) as [Hle Hk].
  set (e := keep_crlf e1 b e1) in *.
  destruct (0 <? e) eqn:Hpos; [|by rewrite app_nil_r].
  apply Nat.ltb_lt in Hpos. cbn [concat]. rewrite app_nil_r.
  apply not_crlf_suffix_app; [exact HE| | |].
  - destruct b as [|y b']; [simpl in He1; lia|]. destruct e; [lia|]. discriminate.
  - destruct b as [|y b'] eqn:Eb; [simpl in He1; lia|]. destruct e as [|e']; [lia|].
    simpl. intros H. injection H as ->. exact (fixCRLF_not_lf_start _ _ Eb).
  - intros q Hq. apply take_crlf_at in Hq as (H2 & H3 & H4); [|lia].
    destruct Hk as [Hk|Hk]; [lia|]. exact (Hk (conj H3 H4)).
Qed.

Lemma simple_writes_end c chunks E :
  ~ crlf `suffix_of` E ->
  crlf `suffix_of` (E ++ concat (simple_writes c chunks)) /\
  ~ (crlf ++ crlf) `suffix_of` (E ++ concat (simple_writes c chunks)).
Proof.
  revert c E. induction chunks as [|x xs IH]; intros c E HE.
  - cbn [simple_writes]. unfold simple_Close.
    destruct (last (s_crlfBuf c)) as [y|] eqn:Ey; [destruct (beq y CR) eqn:Ecr|].
    + apply beq_true in Ecr. subst y. apply last_Some in Ey as [cb' Hcb].
      rewrite Hcb. cbn [app concat]. rewrite app_nil_r.
      split; [eexists; rewrite app_assoc; reflexivity|].
      intros [p Hp].
      change (crlf ++ crlf) with ([CR; LF; CR] ++ [LF]) in Hp.
      change crlf with ([CR] ++ [LF]) in Hp.
      rewrite !app_assoc in Hp. apply app_inj_tail in Hp as [Hp _].
      change [CR; LF; CR] with ([CR; LF] ++ [CR]) in Hp.
      rewrite !app_assoc in Hp. apply app_inj_tail in Hp as [Hp _].
      change [CR; LF] with ([CR] ++ [LF]) in Hp.
      rewrite !app_assoc in Hp. apply app_inj_tail in Hp as [_ Hp]. discriminate.
    + cbn [app concat]. rewrite app_nil_r.
      split; [eexists; reflexivity|].
      intros [p Hp]. rewrite app_assoc in Hp. apply app_inv_tail in Hp.
      apply HE. exists p. exact Hp.
    + cbn [app concat]. rewrite app_nil_r.
      split; [eexists; reflexivity|].
      intros [p Hp]. rewrite app_assoc in Hp. apply app_inv_tail in Hp.
      apply HE. exists p. exact Hp.
  - cbn [simple_writes].
    pose proof (simple_Write_no_crlf_end c x E HE) as HE'.
    destruct (simple_Write c x) as [c' w]. cbn [snd] in HE'.
    rewrite concat_app, app_assoc. apply IH. exact HE'.
Qed.

Lemma simple_writes_empty chunks :
  concat chunks = [] -> concat (simple_writes {| s_crlfBuf := [] |} chunks) = crlf.
Proof.
  induction chunks as [|x xs IH]; intros H; [reflexivity|].
  simpl in H. apply app_eq_nil in H as [-> Hxs].
  cbn [simple_writes]. change (simple_Write {| s_crlfBuf := [] |} []) with
    ({| s_crlfBuf := [] |}, @nil bytes).
  apply IH. exact Hxs.
Qed.

(** Claim C5: whatever the [Write] calls, the bytes the simple body
    canonicalizer emits up to and including [Close] end with CRLF but not
    with two CRLFs; a body with no bytes at all (any number of empty
    writes) gives exactly CRLF. *)
Theorem simple_body_one_trailing_crlf (chunks : list bytes) :
  crlf `suffix_of` concat (CanonicalizeBody CanonicalizationSimple chunks) /\
  ~ (crlf ++ crlf) `suffix_of` concat (CanonicalizeBody CanonicalizationSimple chunks) /\
  (concat chunks = [] -> concat (CanonicalizeBody CanonicalizationSimple chunks) = crlf).
Proof.
  cbn [CanonicalizeBody].
  destruct (simple_writes_end {| s_crlfBuf := [] |} chunks [])
    as [H1 H2]; [intros [p Hp]; destruct p as [|? [|? ?]]; discriminate|].
  split; [exact H1|]. split; [exact H2|]. apply simple_writes_empty.
Qed.

(** ** The relaxed body canonicalizer *)

Lemma wsp_ok_app x y :
  wsp_followed_ok x = true -> wsp_followed_ok y = true -> wsp_followed_ok (x ++ y) = true.
Proof.
  induction x as [|c x IH]; intros Hx Hy; [exact Hy|].
  destruct x as [|d x'].
  - destruct y as [|d y']; [exact Hx|]. simpl in Hx |- *. rewrite Hx. exact Hy.
  - cbn [app] in *. change (wsp_followed_ok (c :: d :: x' ++ y))
      with ((negb (is_wsp c) || negb (is_ws d)) && wsp_followed_ok (d :: x' ++ y)).
    change (wsp_followed_ok (c :: d :: x'))
      with ((negb (is_wsp c) || negb (is_ws d)) && wsp_followed_ok (d :: x')) in Hx.
    apply andb_prop in Hx as [H1 H2]. rewrite H1. simpl. apply (IH H2 Hy).
Qed.

Lemma wsp_ok_spec s :
  wsp_followed_ok s = true ->
  forall i c, s !! i = Some c -> is_wsp c = true -> exists d, s !! S i = Some d /\ is_ws d = false.
Proof.
  induction s as [|c s IH]; intros Hs i x Hi Hw; [discriminate|].
  destruct s as [|d s'].
  - destruct i; [|discriminate]. injection Hi as ->. simpl in Hs. rewrite Hw in Hs. discriminate.
  - change (wsp_followed_ok (c :: d :: s'))
      with ((negb (is_wsp c) || negb (is_ws d)) && wsp_followed_ok (d :: s')) in Hs.
    apply andb_prop in Hs as [H1 H2].
    destruct i as [|i].
    + injection Hi as ->. rewrite Hw in H1. simpl in H1. exists d. split; [reflexivity|].
      destruct (is_ws d); [discriminate|reflexivity].
    + exact (IH H2 i x Hi Hw).
Qed.

Lemma wsp_ok_crlf_bytes cb : Forall crlf_byte cb -> wsp_followed_ok cb = true.
Proof.
  induction 1 as [|c cb Hc Hcb IH]; [reflexivity|].
  destruct cb as [|d cb'].
  - destruct Hc as [->| ->]; reflexivity.
  - change (wsp_followed_ok (c :: d :: cb'))
      with ((negb (is_wsp c) || negb (is_ws d)) && wsp_followed_ok (d :: cb')).
    rewrite IH. destruct Hc as [->| ->]; reflexivity.
Qed.

Lemma has_nonws_app x y : has_nonws (x ++ y) = has_nonws x || has_nonws y.
Proof. apply existsb_app. Qed.

Lemma has_nonws_fixCRLF_go prev b : has_nonws (fixCRLF_go prev b) = has_nonws b.
Proof.
  revert prev. induction b as [|c b IH]; intros prev; [reflexivity|]. cbn [fixCRLF_go].
  rewrite has_nonws_app, IH.
  unfold has_nonws. destruct (_ && _); cbn [existsb app]; rewrite ?orb_false_r;
    [replace (is_ws CR) with true by reflexivity; cbn [negb orb]|]; reflexivity.
Qed.

Lemma relaxed_loop_inv b cb wb acc :
  Forall crlf_byte cb -> wsp_followed_ok acc = true -> (acc <> [] -> has_nonws acc = true) ->
  let '(can', cb', _) := relaxed_loop b cb wb acc in
  Forall crlf_byte cb' /\ wsp_followed_ok can' = true /\
  (can' <> [] -> has_nonws can' = true) /\
  has_nonws can' = has_nonws acc || has_nonws b.
Proof.
  revert cb wb acc. induction b as [|ch b IH]; intros cb wb acc Hcb Hacc Hne.
  - simpl. rewrite orb_false_r. auto.
  - cbn [relaxed_loop].
    destruct (beq ch SP || beq ch HTAB) eqn:Ew; [|destruct (beq ch CR || beq ch LF) eqn:Ec].
    + specialize (IH cb (wb ++ [ch]) acc Hcb Hacc Hne).
      destruct (relaxed_loop b cb (wb ++ [ch]) acc) as [[can' cb'] wb'].
      destruct IH as (H1 & H2 & H3 & H4). repeat split; auto.
      rewrite H4. unfold has_nonws. cbn [existsb]. unfold is_ws, is_wsp. rewrite Ew. reflexivity.
    + assert (Hcb' : Forall crlf_byte (cb ++ [ch])).
      { apply Forall_app. split; [exact Hcb|]. constructor; [|constructor].
        apply orb_prop in Ec as [E|E]; apply beq_true in E; [left|right]; exact E. }
      specialize (IH (cb ++ [ch]) [] acc Hcb' Hacc Hne).
      destruct (relaxed_loop b (cb ++ [ch]) [] acc) as [[can' cb'] wb'].
      destruct IH as (H1 & H2 & H3 & H4). repeat split; auto.
      assert (Hws : is_ws ch = true) by (unfold is_ws, is_wsp; rewrite Ew; cbn [orb]; exact Ec).
      rewrite H4. unfold has_nonws. cbn [existsb]. rewrite Hws. reflexivity.
    + set (c1 := if 0 <? length cb then acc ++ cb else acc).
      set (c2 := if 0 <? length wb then c1 ++ [SP] else c1).
      assert (Hwsp : is_wsp ch = false) by exact Ew.
      assert (Hnw : is_ws ch = false) by (unfold is_ws; rewrite Hwsp; cbn [orb]; exact Ec).
      assert (Hc1 : wsp_followed_ok c1 = true).
      { unfold c1. destruct (0 <? length cb); [|exact Hacc].
        apply wsp_ok_app; [exact Hacc|]. apply wsp_ok_crlf_bytes. exact Hcb. }
      assert (Hacc' : wsp_followed_ok (c2 ++ [ch]) = true).
      { unfold c2. destruct (0 <? length wb).
        - rewrite <- app_assoc. apply wsp_ok_app; [exact Hc1|].
          change (wsp_followed_ok ([SP] ++ [ch]))
            with ((negb (is_wsp SP) || negb (is_ws ch)) && negb (is_wsp ch)).
          rewrite Hnw, Hwsp, orb_true_r. reflexivity.
        - apply wsp_ok_app; [exact Hc1|].
          change (wsp_followed_ok [ch]) with (negb (is_wsp ch)). rewrite Hwsp. reflexivity. }
      assert (Hhas : has_nonws (c2 ++ [ch]) = true).
      { rewrite has_nonws_app. unfold has_nonws at 2. simpl. rewrite Hnw, orb_true_r. reflexivity. }
      specialize (IH [] [] (c2 ++ [ch]) (List.Forall_nil _) Hacc' (fun _ => Hhas)).
      destruct (relaxed_loop b [] [] (c2 ++ [ch])) as [[can' cb'] wb'].
      destruct IH as (H1 & H2 & H3 & H4). repeat split; auto.
      rewrite H4, Hhas. unfold has_nonws. cbn [existsb]. rewrite Hnw, orb_true_r. reflexivity.
Qed.

Lemma relaxed_Write_all_inv chunks c :
  Forall crlf_byte (r_crlfBuf c) ->
  let '(st, ws) := relaxed_Write_all c chunks in
  r_written st = r_written c || has_nonws (concat ws) /\
  has_nonws (concat ws) = has_nonws (concat chunks) /\
  wsp_followed_ok (concat ws) = true /\
  (concat ws <> [] -> has_nonws (concat ws) = true).
Proof.
  revert c. induction chunks as [|x xs IH]; intros c Hc.
  - simpl. rewrite orb_false_r. repeat split; auto.
  - cbn [relaxed_Write_all]. unfold relaxed_Write.
    pose proof (relaxed_loop_inv (fixCRLF x) (r_crlfBuf c) (r_wspBuf c) [] Hc eq_refl
                  ltac:(congruence)) as Hl.
    destruct (relaxed_loop (fixCRLF x) (r_crlfBuf c) (r_wspBuf c) []) as [[can cb] wb].
    destruct Hl as (H1 & H2 & H3 & H4). cbn [has_nonws existsb orb] in H4.
    specialize (IH {| r_crlfBuf := cb; r_wspBuf := wb;
                      r_written := r_written c || (0 <? length can) |} H1).
    destruct (relaxed_Write_all _ xs) as [st ws].
    destruct IH as (I1 & I2 & I3 & I4). cbn [r_written] in I1.
    assert (Hlen : (0 <? length can) = has_nonws can).
    { destruct can as [|y can']; [reflexivity|]. symmetry. apply H3. discriminate. }
    rewrite concat_app. cbn [concat]. rewrite app_nil_r, !has_nonws_app. repeat split.
    + rewrite I1, Hlen, orb_assoc. reflexivity.
    + rewrite I2, H4. unfold fixCRLF. rewrite has_nonws_fixCRLF_go. reflexivity.
    + rewrite ?app_nil_r. apply wsp_ok_app; assumption.
    + rewrite ?app_nil_r. intros Hne. destruct can as [|y can'].
      * simpl. apply I4. exact Hne.
      * rewrite H3 by discriminate. reflexivity.
Qed.

Lemma relaxed_writes_split chunks c :
  relaxed_writes c chunks
  = (relaxed_Write_all c chunks).2 ++ relaxed_Close (relaxed_Write_all c chunks).1.
Proof.
  revert c. induction chunks as [|x xs IH]; intros c; [reflexivity|].
  cbn [relaxed_writes relaxed_Write_all].
  destruct (relaxed_Write c x) as [c' w]. rewrite IH.
  destruct (relaxed_Write_all c' xs) as [st ws]. simpl. by rewrite app_assoc.
Qed.

(** Claim C6: run the relaxed body canonicalizer on any chunks; let [ws] be
    the writes made by the [Write] calls and [st] the state [Close] sees.
    The output is [ws] followed by what [Close] writes; [Close] writes CRLF
    exactly when a byte other than SP, HTAB, CR and LF was written before,
    which is exactly when the body has such a byte.  So the output is empty
    or ends with CRLF, an empty or all-whitespace body gives empty output,
    and every SP or HTAB of the output is followed by a byte that is not
    whitespace (no whitespace is left in front of a CRLF). *)
Theorem relaxed_body_trailing_crlf (chunks : list bytes) :
  let init := {| r_crlfBuf := []; r_wspBuf := []; r_written := false |} in
  let st := (relaxed_Write_all init chunks).1 in
  let ws := (relaxed_Write_all init chunks).2 in
  let out := concat (CanonicalizeBody CanonicalizationRelaxed chunks) in
  out = concat ws ++ concat (relaxed_Close st) /\
  relaxed_Close st = (if has_nonws (concat ws) then [crlf] else []) /\
  has_nonws (concat ws) = has_nonws (concat chunks) /\
  (out = [] \/ crlf `suffix_of` out) /\
  (has_nonws (concat chunks) = false -> out = []) /\
  (forall i c, out !! i = Some c -> is_wsp c = true ->
     exists d, out !! S i = Some d /\ is_ws d = false).
Proof.
  intros init st ws out.
  pose proof (relaxed_Write_all_inv chunks init (List.Forall_nil _)) as Hinv.
  unfold st, ws in *. clear st ws.
  destruct (relaxed_Write_all init chunks) as [st ws] eqn:Eall. cbn [fst snd] in *.
  destruct Hinv as (I1 & I2 & I3 & I4). unfold init in I1. cbn [r_written orb] in I1.
  assert (Hout : out = concat ws ++ concat (relaxed_Close st)).
  { unfold out. cbn [CanonicalizeBody]. fold init.
    rewrite relaxed_writes_split, concat_app, Eall. reflexivity. }
  assert (Hclose : relaxed_Close st = (if has_nonws (concat ws) then [crlf] else [])).
  { unfold relaxed_Close. rewrite I1. reflexivity. }
  split; [exact Hout|]. split; [exact Hclose|]. split; [exact I2|].
  rewrite Hclose in Hout.
  assert (Hempty : has_nonws (concat ws) = false -> out = []).
  { intros Hf. rewrite Hout, Hf. simpl. rewrite app_nil_r.
    destruct (concat ws) as [|y r] eqn:Ec; [reflexivity|].
    rewrite I4 in Hf by discriminate. discriminate. }
  split; [|split].
  - destruct (has_nonws (concat ws)) eqn:Eh.
    + right. rewrite Hout. cbn [concat]. rewrite app_nil_r. eexists. reflexivity.
    + left. apply Hempty. reflexivity.
  - intros Hf. apply Hempty. rewrite I2. exact Hf.
  - apply wsp_ok_spec. rewrite Hout.
    destruct (has_nonws (concat ws)); simpl; rewrite ?app_nil_r; [|exact I3].
    apply wsp_ok_app; [exact I3|reflexivity].
Qed.

(** Claim C7 (code bug): the relaxed body canonicalizer is not insensitive
    to chunk boundaries.  [relaxedBodyCanonicalizer.Write] runs [fixCRLF] on
    each chunk alone, so an LF opening a chunk gets a CR inserted even when
    the previous chunk ended in CR: the body "a" CR LF "b" written as
    "a" CR and LF "b" canonicalizes to "a" CR CR LF "b" CR LF, while written
    in one piece it gives "a" CR LF "b" CR LF. *)
Theorem relaxed_body_chunk_boundary_cr_lf :
  concat (CanonicalizeBody CanonicalizationRelaxed [bs "a" ++ [CR]; LF :: bs "b"])
    = bs "a" ++ [CR; CR; LF] ++ bs "b" ++ crlf /\
  concat (CanonicalizeBody CanonicalizationRelaxed [bs "a" ++ [CR; LF] ++ bs "b"])
    = bs "a" ++ crlf ++ bs "b" ++ crlf /\
  concat [bs "a" ++ [CR]; LF :: bs "b"] = bs "a" ++ [CR; LF] ++ bs "b".
Proof. split; [|split]; vm_compute; reflexivity. Qed.

(** ** The body length limit *)

Lemma limited_feed_spec writes W N :
  (0 <= N)%Z ->
  lw_W (limited_feed {| lw_W := W; lw_N := N |} writes).1 = W ++ take (Z.to_nat N) (concat writes) /\
  Forall (fun r => r.2 = None) (limited_feed {| lw_W := W; lw_N := N |} writes).2.
Proof.
  revert W N. induction writes as [|b bs' IH]; intros W N HN.
  - simpl. rewrite take_nil, app_nil_r. split; [reflexivity|constructor].
  - cbn [limited_feed concat]. unfold limitedWriter_Write. cbn [lw_N lw_W].
    destruct (N <=? 0)%Z eqn:E0.
    + apply Z.leb_le in E0. assert (N = 0%Z) as -> by lia.
      destruct (IH W 0%Z ltac:(lia)) as [H1 H2].
      destruct (limited_feed _ bs') as [w2 rs]. cbn [fst snd] in *.
      split; [rewrite H1; simpl; reflexivity|constructor; [reflexivity|exact H2]].
    + apply Z.leb_gt in E0.
      destruct (len b >? N)%Z eqn:Eg.
      * apply Z.gtb_lt in Eg. unfold len in Eg.
        assert (Hlt : Z.to_nat N < length b) by lia.
        assert (Hl1 : len (take (Z.to_nat N) b) = N) by (unfold len; rewrite length_take; lia).
        rewrite Hl1. replace (N - N)%Z with 0%Z by lia.
        destruct (IH (W ++ take (Z.to_nat N) b) 0%Z ltac:(lia)) as [H1 H2].
        destruct (limited_feed _ bs') as [w2 rs]. cbn [fst snd] in *.
        split; [|constructor; [reflexivity|exact H2]].
        rewrite H1, take_app_le by lia. simpl. by rewrite !app_nil_r.
      * rewrite Z.gtb_ltb in Eg. apply Z.ltb_ge in Eg. unfold len in Eg |- *.
        destruct (IH (W ++ b) (N - Z.of_nat (length b))%Z ltac:(lia)) as [H1 H2].
        destruct (limited_feed _ bs') as [w2 rs]. cbn [fst snd] in *.
        split; [|constructor; [reflexivity|exact H2]].
        rewrite H1, take_app. rewrite (take_ge b) by lia. rewrite <- app_assoc. do 3 f_equal. lia.
Qed.

(** Claim C4: with a body length limit [n >= 0] ([l=n] present), the body
    hasher receives exactly the first [n] bytes of the canonicalized body,
    for either canonicalization and any chunking; every [Write] into the
    [limitedWriter] returns no error, so the rest is dropped silently; for
    [n = 0] the hasher receives nothing, i.e. the empty body. *)
Theorem body_length_limit (bodyCan : Canonicalization) (n : Z) (body : list bytes) :
  (0 <= n)%Z ->
  body_hash_input bodyCan n body = take (Z.to_nat n) (concat (CanonicalizeBody bodyCan body)) /\
  Forall (fun r => r.2 = None)
    (limited_feed {| lw_W := []; lw_N := n |} (CanonicalizeBody bodyCan body)).2 /\
  (n = 0%Z -> body_hash_input bodyCan n body = []).
Proof.
  intros Hn.
  destruct (limited_feed_spec (CanonicalizeBody bodyCan body) [] n Hn) as [H1 H2].
  assert (Hb : body_hash_input bodyCan n body
               = take (Z.to_nat n) (concat (CanonicalizeBody bodyCan body))).
  { unfold body_hash_input. rewrite (proj2 (Z.geb_le n 0) ltac:(lia)). exact H1. }
  split; [exact Hb|]. split; [exact H2|].
  intros ->. rewrite Hb. apply take_0.
Qed.

Lemma body_length_limit_witness :
  (0 <= 3)%Z /\
  body_hash_input CanonicalizationSimple 3 [bs "hello"]
    = take (Z.to_nat 3) (concat (CanonicalizeBody CanonicalizationSimple [bs "hello"])) /\
  Forall (fun r => r.2 = None)
    (limited_feed {| lw_W := []; lw_N := 3 |} (CanonicalizeBody CanonicalizationSimple [bs "hello"])).2 /\
  (3%Z = 0%Z -> body_hash_input CanonicalizationSimple 3 [bs "hello"] = []).
Proof.
  split; [lia|]. apply body_length_limit. lia.
Defined.

Lemma format_parse_roundtrip_witness :
  map_Forall tag_ok (<[bs "v" := bs "1"]> (<[bs "a" := bs "rsa-sha256"]> ∅) : gmap bytes bytes) /\
  parse_ok (parseHeaderParams (formatHeaderParams
    (<[bs "v" := bs "1"]> (<[bs "a" := bs "rsa-sha256"]> ∅))))
  = Some (<[bs "v" := bs "1"]> (<[bs "a" := bs "rsa-sha256"]> ∅)).
Proof.
  assert (Hm : map_Forall tag_ok (<[bs "v" := bs "1"]> (<[bs "a" := bs "rsa-sha256"]> ∅) : gmap bytes bytes)).
  { apply map_Forall_insert_2; [|apply map_Forall_insert_2; [|apply map_Forall_empty]];
      unfold tag_ok; repeat split;
      first [ intros H; vm_compute in H; intuition congruence
            | vm_compute; reflexivity
            | vm_compute; congruence ]. }
  split; [exact Hm|]. apply format_parse_roundtrip. exact Hm.
Defined.

(** ** The body-hash and signature checks of [verify] *)

(** Claim C3: when the hash of the canonicalized body differs from the
    [bh=] value, the stage returns exactly the error "body hash did not
    verify" as a [failError]; when the body hash matches and the signature
    verifier fails with [m], it returns the [failError]
    "signature did not verify: " [m]; and every error this stage returns is
    neither a permanent nor a temporary failure but a signature failure
    ([IsPermFail] and [IsTempFail] false, [isFail] true). *)
Theorem body_hash_mismatch_is_fail (hash_sum : bytes -> bytes)
    (Verifier_Verify : bytes -> bytes -> option string) (ToLower : bytes -> bytes)
    (h headerKeys : list bytes) (sigField : bytes) (headerCan bodyCan : Canonicalization)
    (bodyLen : Z) (body : list bytes) (bodyHashed sig : bytes) :
  let r := verify_body_and_signature hash_sum Verifier_Verify ToLower h headerKeys sigField
             headerCan bodyCan bodyLen body bodyHashed sig in
  (hash_sum (body_hash_input bodyCan bodyLen body) <> bodyHashed ->
     r = Some (failError "body hash did not verify")) /\
  (forall m, hash_sum (body_hash_input bodyCan bodyLen body) = bodyHashed ->
     Verifier_Verify (hash_sum (header_hash_input ToLower h headerKeys sigField headerCan)) sig
       = Some m ->
     r = Some (failError ("signature did not verify: " ++ m))) /\
  (forall e, r = Some e -> IsPermFail e = false /\ IsTempFail e = false /\ isFail e = true).
Proof.
  intros r. unfold r, verify_body_and_signature, ConstantTimeCompare.
  split; [|split].
  - intros Hne. rewrite bool_decide_false by exact Hne. reflexivity.
  - intros m Heq Hv. rewrite bool_decide_true by exact Heq. simpl. rewrite Hv. reflexivity.
  - intros e. case_bool_decide; simpl.
    + destruct (Verifier_Verify _ sig); [|discriminate].
      intros H'. injection H' as <-. auto.
    + intros H'. injection H' as <-. auto.
Qed.

Lemma body_hash_mismatch_is_fail_witness :
  let r := verify_body_and_signature (fun b => b) (fun _ _ => Some "bad key"%string) id
             [bs "From: a"] [bs "From"] (bs "DKIM-Signature: b=") CanonicalizationSimple
             CanonicalizationSimple (-1)%Z [bs "x"] (bs "y") (bs "s") in
  (bs "x" ++ crlf <> bs "y" -> r = Some (failError "body hash did not verify")) /\
  (forall m, bs "x" ++ crlf = bs "y" ->
     (fun _ _ => Some "bad key"%string) (header_hash_input id [bs "From: a"] [bs "From"]
        (bs "DKIM-Signature: b=") CanonicalizationSimple) (bs "s") = Some m ->
     r = Some (failError ("signature did not verify: " ++ m))) /\
  (forall e, r = Some e -> IsPermFail e = false /\ IsTempFail e = false /\ isFail e = true).
Proof.
  exact (body_hash_mismatch_is_fail (fun b => b) (fun _ _ => Some "bad key"%string) id
           [bs "From: a"] [bs "From"] (bs "DKIM-Signature: b=") CanonicalizationSimple
           CanonicalizationSimple (-1)%Z [bs "x"] (bs "y") (bs "s")).
Defined.

(** ** The signature limit *)

(** Claim C10: with [MaxVerifications = N > 0] and more than [N]
    DKIM-Signature fields in the header, [VerifyWithOptions] returns
    [ErrTooManySignatures] together with exactly [N] verifications, those
    of the first [N] signatures in header order. *)
Theorem too_many_signatures (EqualFold : bytes -> bytes -> bool)
    (verify_one : list bytes -> signature -> Verification) (h : list bytes) (N : nat) :
  0 < N -> N < length (scan_signatures EqualFold h) ->
  (VerifyWithOptions EqualFold verify_one h N).2 = Some ErrTooManySignatures /\
  length (VerifyWithOptions EqualFold verify_one h N).1 = N /\
  (VerifyWithOptions EqualFold verify_one h N).1
    = map (verify_one h) (take N (scan_signatures EqualFold h)).
Proof.
  intros Hpos Hlt. unfold VerifyWithOptions.
  rewrite (proj2 (Nat.ltb_lt 0 N) Hpos), (proj2 (Nat.ltb_lt N _) Hlt). simpl.
  split; [reflexivity|]. split; [|reflexivity].
  rewrite length_map, length_take. lia.
Qed.

Lemma too_many_signatures_witness :
  let EF := fun a b : bytes => bool_decide (a = b) in
  let vo := fun (_ : list bytes) (s : signature) =>
              {| Domain := sig_v s; Identifier := []; HeaderKeys := []; BodyLength := (-1)%Z;
                 Err := None |} in
  let h := [bs "DKIM-Signature: a"; bs "DKIM-Signature: b"; bs "From: x";
            bs "DKIM-Signature: c"] in
  0 < 2 /\ 2 < length (scan_signatures EF h) /\
  ((VerifyWithOptions EF vo h 2).2 = Some ErrTooManySignatures /\
   length (VerifyWithOptions EF vo h 2).1 = 2 /\
   (VerifyWithOptions EF vo h 2).1 = map (vo h) (take 2 (scan_signatures EF h))).
Proof.
  intros EF vo h.
  assert (H1 : 0 < 2) by lia.
  assert (H2 : 2 < length (scan_signatures EF h)) by (vm_compute; lia).
  split; [exact H1|]. split; [exact H2|].
  exact (too_many_signatures EF vo h 2 H1 H2).
Defined.

(** ** Further properties of the code *)

Lemma fixCRLF_go_app prev a c :
  fixCRLF_go prev (a ++ c) = fixCRLF_go prev a ++ fixCRLF_go (last_or prev a) c.
Proof.
  revert prev. induction a as [|y a IH]; intros prev; [reflexivity|].
  cbn [app fixCRLF_go]. rewrite IH, <- app_assoc. unfold last_or.
  rewrite last_cons. destruct (last a); reflexivity.
Qed.

Lemma fixCRLF_go_prev p1 p2 s :
  prev_is_CR p1 = prev_is_CR p2 -> fixCRLF_go p1 s = fixCRLF_go p2 s.
Proof.
  intros H. destruct s as [|c s]; [reflexivity|]. cbn [fixCRLF_go].
  change (match p1 with Some p => beq p CR | None => false end) with (prev_is_CR p1).
  change (match p2 with Some p => beq p CR | None => false end) with (prev_is_CR p2).
  rewrite H. reflexivity.
Qed.

Lemma fixCRLF_go_last prev s : last (fixCRLF_go prev s) = last s.
Proof.
  revert prev. induction s as [|c s IH]; intros prev; [reflexivity|].
  cbn [fixCRLF_go]. rewrite last_app, IH, last_cons.
  destruct (last s); [reflexivity|].
  destruct (_ && _); reflexivity.
Qed.

Lemma fixCRLF_go_nil prev s : fixCRLF_go prev s = [] -> s = [].
Proof.
  destruct s as [|c s]; [reflexivity|]. cbn [fixCRLF_go].
  destruct (_ && _); discriminate.
Qed.

Lemma fixCRLF_go_crlf_run prev n : fixCRLF_go prev (crlf_run n) = crlf_run n.
Proof.
  revert prev. induction n as [|n IH]; intros prev; [reflexivity|].
  unfold crlf_run in *. cbn [repeat concat crlf app fixCRLF_go].
  rewrite IH. reflexivity.
Qed.

Lemma fixCRLF_go_pending prev n :
  fixCRLF_go prev (crlf_run n ++ [CR]) = crlf_run n ++ [CR].
Proof.
  rewrite fixCRLF_go_app, fixCRLF_go_crlf_run. reflexivity.
Qed.

Lemma crlf_run_snoc n : crlf_run n ++ crlf = crlf_run (S n).
Proof.
  unfold crlf_run. induction n as [|n IH]; [reflexivity|].
  cbn [repeat concat]. rewrite <- app_assoc, IH. reflexivity.
Qed.

Lemma keep_crlf_fuel b f1 f2 e :
  e <= f1 -> e <= f2 -> keep_crlf f1 b e = keep_crlf f2 b e.
Proof.
  revert f2 e. induction f1 as [|f1 IH]; intros f2 e H1 H2.
  - assert (e = 0) as -> by lia. destruct f2; reflexivity.
  - destruct f2 as [|f2].
    + assert (e = 0) as -> by lia. reflexivity.
    + cbn [keep_crlf]. destruct (_ && _ && _) eqn:Ec; [|reflexivity].
      apply andb_prop in Ec as [Ec _]. apply andb_prop in Ec as [Ec _].
      apply Nat.leb_le in Ec. apply IH; lia.
Qed.

Lemma at_app_r E b i : at_ (E ++ b) (length E + i) = at_ b i.
Proof. unfold at_. apply app_nth2_plus. Qed.

Lemma crlf_suffix_at E :
  2 <= length E -> at_ E (length E - 2) = CR -> at_ E (length E - 1) = LF ->
  crlf `suffix_of` E.
Proof.
  intros Hl. destruct E as [|y E _] using rev_ind; [simpl in Hl; lia|].
  destruct E as [|x E _] using rev_ind; [simpl in Hl; lia|].
  rewrite <- app_assoc. cbn [app]. rewrite !length_app. cbn [length].
  replace (length E + 2 - 2) with (length E + 0) by lia.
  replace (length E + 2 - 1) with (length E + 1) by lia.
  rewrite !at_app_r. cbn. intros -> ->. exists E. reflexivity.
Qed.

Lemma keep_crlf_app E b f e :
  e <= f -> e <= length b -> (forall r, b <> LF :: r) -> ~ crlf `suffix_of` E ->
  keep_crlf f (E ++ b) (length E + e) = length E + keep_crlf f b e.
Proof.
  intros Hf Hb Hlf HE. revert e Hf Hb. induction f as [|f IH]; intros e Hf Hb.
  - reflexivity.
  - cbn [keep_crlf]. destruct e as [|[|e]].
    + rewrite Nat.add_0_r. replace (2 <=? 0) with false by reflexivity.
      rewrite !andb_false_l, Nat.add_0_r.
      destruct (_ && _ && _) eqn:Ec; [|reflexivity].
      apply andb_prop in Ec as [Ec E4]. apply andb_prop in Ec as [E2 E3].
      exfalso. apply HE. apply Nat.leb_le in E2.
      unfold beq in E3, E4. apply bool_decide_eq_true in E3, E4.
      apply crlf_suffix_at; [exact E2| |].
      * unfold at_ in *. rewrite app_nth1 in E3 by lia. exact E3.
      * unfold at_ in *. rewrite app_nth1 in E4 by lia. exact E4.
    + replace (2 <=? 1) with false by reflexivity. rewrite andb_false_l.
      replace (length E + 1 - 1) with (length E + 0) by lia. rewrite at_app_r.
      destruct b as [|c b]; [simpl in Hb; lia|].
      assert (beq (at_ (c :: b) 0) LF = false) as ->.
      { unfold beq, at_. cbn. apply bool_decide_eq_false. intros ->. exact (Hlf b eq_refl). }
      rewrite !andb_false_r. reflexivity.
    + replace (length E + S (S e) - 2) with (length E + e) by lia.
      replace (length E + S (S e) - 1) with (length E + S e) by lia.
      rewrite !at_app_r. replace (S (S e) - 2) with e by lia.
      replace (S (S e) - 1) with (S e) by lia.
      replace (2 <=? length E + S (S e)) with true by (symmetry; apply Nat.leb_le; lia).
      replace (2 <=? S (S e)) with true by reflexivity.
      destruct (_ && _ && _); [|reflexivity]. apply IH; lia.
Qed.

Lemma at_lookup b i : i < length b -> b !! i = Some (at_ b i).
Proof.
  intros Hi. unfold at_. destruct (nth_lookup_or_length b i "000"%char) as [H|H];
    [exact H | lia].
Qed.

Lemma keep_crlf_run b f e :
  e <= f -> e <= length b ->
  keep_crlf f b e <= e /\ exists n, drop (keep_crlf f b e) (take e b) = crlf_run n.
Proof.
  revert e. induction f as [|f IH]; intros e Hf Hb.
  - split; [cbn; lia|]. exists 0. cbn [keep_crlf].
    apply drop_ge. rewrite length_take. lia.
  - cbn [keep_crlf]. destruct (_ && _ && _) eqn:Ec.
    + apply andb_prop in Ec as [Ec E4]. apply andb_prop in Ec as [E2 E3].
      apply Nat.leb_le in E2. unfold beq in E3, E4.
      apply bool_decide_eq_true in E3, E4.
      destruct (IH (e - 2) ltac:(lia) ltac:(lia)) as [Hle [n Hn]].
      split; [lia|]. exists (S n).
      replace e with (S (S (e - 2))) at 2 by lia.
      rewrite (take_S_r b (S (e - 2)) LF), (take_S_r b (e - 2) CR).
      * rewrite <- !app_assoc. cbn [app].
        rewrite drop_app_le by (rewrite length_take; lia).
        rewrite Hn. apply crlf_run_snoc.
      * rewrite <- E3. apply at_lookup. lia.
      * rewrite <- E4. replace (S (e - 2)) with (e - 1) by lia. apply at_lookup. lia.
    + split; [lia|]. exists 0. apply drop_ge. rewrite length_take. lia.
Qed.

Lemma simple_end_shape b :
  simple_end b <= length b /\
  (exists n, drop (simple_end b) b = crlf_run n \/ drop (simple_end b) b = crlf_run n ++ [CR]) /\
  (simple_end b = length b -> last b <> Some CR).
Proof.
  unfold simple_end.
  destruct ((0 <? length b) && beq (at_ b (length b - 1)) CR) eqn:Ec.
  - apply andb_prop in Ec as [E1 E2]. apply Nat.ltb_lt in E1.
    unfold beq in E2. apply bool_decide_eq_true in E2.
    destruct (keep_crlf_run b (length b - 1) (length b - 1) ltac:(lia) ltac:(lia))
      as [Hle [n Hn]].
    assert (Hd : drop (length b - 1) b = [CR]).
    { clear Hn Hle. destruct b as [|y b' _] using rev_ind; [cbn in E1; lia|].
      rewrite length_app in *. cbn [length] in *.
      replace (length b' + 1 - 1) with (length b') in * by lia.
      rewrite drop_app_length. unfold at_ in E2.
      replace (length b') with (length b' + 0) in E2 by lia.
      rewrite app_nth2_plus in E2. cbn in E2. subst y. reflexivity. }
    set (k := keep_crlf (length b - 1) b (length b - 1)) in *.
    split; [lia|]. split; [|lia].
    exists n. right. rewrite <- Hn, <- Hd.
    rewrite <- (drop_app_le (take (length b - 1) b)) by (rewrite length_take; lia).
    rewrite take_drop. reflexivity.
  - destruct (keep_crlf_run b (length b) (length b) ltac:(lia) ltac:(lia))
      as [Hle [n Hn]].
    split; [lia|]. split.
    + exists n. left. rewrite take_ge in Hn by lia. exact Hn.
    + intros _ Hlast. rewrite last_lookup in Hlast.
      destruct b as [|y b]; [discriminate|].
      cbn [length pred] in Hlast.
      rewrite (at_lookup (y :: b) (length b)) in Hlast by (cbn; lia).
      replace (length (y :: b) - 1) with (length b) in Ec by (cbn; lia).
      injection Hlast as Hl. rewrite Hl in Ec. cbn in Ec. discriminate.
Qed.

Lemma simple_end_app E b :
  b <> [] -> (forall r, b <> LF :: r) -> ~ crlf `suffix_of` E ->
  simple_end (E ++ b) = length E + simple_end b.
Proof.
  intros Hne Hlf HE. unfold simple_end. rewrite length_app.
  assert (0 < length b) by (destruct b; [congruence | cbn; lia]).
  replace (length E + length b - 1) with (length E + (length b - 1)) by lia.
  rewrite at_app_r.
  replace (0 <? length E + length b) with true by (symmetry; apply Nat.ltb_lt; lia).
  replace (0 <? length b) with true by (symmetry; apply Nat.ltb_lt; lia).
  destruct (beq (at_ b (length b - 1)) CR); cbn [andb].
  - rewrite (keep_crlf_app E b _ (length b - 1)) by (auto; lia).
    f_equal. apply keep_crlf_fuel; lia.
  - rewrite (keep_crlf_app E b _ (length b)) by (auto; lia).
    f_equal. apply keep_crlf_fuel; lia.
Qed.

Lemma simple_Write_end c x :
  simple_Write c x =
  (let b := fixCRLF (s_crlfBuf c ++ x) in
   ({| s_crlfBuf := drop (simple_end b) b |},
    if 0 <? simple_end b then [take (simple_end b) b] else [])).
Proof. reflexivity. Qed.

Lemma concat_guarded_take (e : nat) (b : bytes) :
  concat (if 0 <? e then [take e b] else []) = take e b.
Proof.
  destruct (0 <? e) eqn:He; cbn; [apply app_nil_r|].
  apply Nat.ltb_ge in He. assert (e = 0) as -> by lia. reflexivity.
Qed.

Lemma fixCRLF_app_state X E P x :
  simple_state_ok X E P -> fixCRLF (X ++ x) = E ++ fixCRLF (P ++ x).
Proof.
  intros (H1 & _ & _ & H4 & n & H5).
  unfold fixCRLF. rewrite !fixCRLF_go_app. fold (fixCRLF X). rewrite H1, <- app_assoc.
  f_equal.
  assert (Hp : fixCRLF_go None P = P)
    by (destruct H5 as [-> | ->]; [apply fixCRLF_go_crlf_run | apply fixCRLF_go_pending]).
  rewrite Hp. f_equal. apply fixCRLF_go_prev.
  assert (Hl : last X = last (E ++ P)).
  { rewrite <- H1. unfold fixCRLF. symmetry. apply fixCRLF_go_last. }
  unfold last_or. rewrite Hl, last_app.
  destruct (last P) eqn:EP; [reflexivity|].
  apply last_None in EP. specialize (H4 EP).
  destruct (last E) as [y|]; [|reflexivity]. cbn.
  unfold beq. apply bool_decide_eq_false. congruence.
Qed.

Lemma simple_Write_state X E P x :
  simple_state_ok X E P ->
  simple_state_ok (X ++ x) (E ++ concat (simple_Write {| s_crlfBuf := P |} x).2)
                  (s_crlfBuf (simple_Write {| s_crlfBuf := P |} x).1).
Proof.
  intros Hok.
  pose proof (simple_Write_no_crlf_end {| s_crlfBuf := P |} x E) as Hno.
  pose proof (fixCRLF_app_state X E P x Hok) as Hfix.
  destruct Hok as (H1 & H2 & H3 & H4 & H5).
  specialize (Hno H3). unfold simple_state_ok.
  rewrite simple_Write_end in *. cbn [s_crlfBuf fst snd] in *.
  rewrite concat_guarded_take in *.
  set (b := fixCRLF (P ++ x)) in *.
  destruct (simple_end_shape b) as (S1 & S2 & S3).
  set (e := simple_end b) in *.
  destruct (decide (b = [])) as [Hb|Hb].
  - assert (HP : P = []).
    { unfold b, fixCRLF in Hb. apply fixCRLF_go_nil in Hb. apply app_eq_nil in Hb. tauto. }
    subst P. assert (He : e = 0) by (unfold e; rewrite Hb; reflexivity).
    rewrite Hb, He in *. rewrite take_nil, drop_nil, !app_nil_r in *.
    split; [exact Hfix|]. split; [exact H2|]. split; [exact Hno|].
    split; [exact H4|exact H5].
  - split; [rewrite Hfix, <- app_assoc, take_drop; reflexivity|].
    split.
    { rewrite <- app_assoc, take_drop, simple_end_app; [|exact Hb| |exact H3].
      - rewrite length_app, length_take. fold e. lia.
      - intros r. apply fixCRLF_not_lf_start. }
    split; [exact Hno|]. split; [|exact S2].
    intros Hd.
    assert (He : e = length b).
    { assert (length (drop e b) = 0) by (rewrite Hd; reflexivity).
      rewrite length_drop in *. lia. }
    rewrite last_app, take_ge by lia.
    destruct (last b) eqn:Elb.
    + intros Hc. apply (S3 He). congruence.
    + apply last_None in Elb. contradiction.
Qed.

Lemma simple_writes_state chunks X E P :
  simple_state_ok X E P ->
  exists E' P', simple_state_ok (X ++ concat chunks) E' P' /\
    E ++ concat (simple_writes {| s_crlfBuf := P |} chunks) =
    E' ++ concat (simple_Close {| s_crlfBuf := P' |}).
Proof.
  revert X E P. induction chunks as [|x xs IH]; intros X E P Hok.
  - exists E, P. rewrite app_nil_r. split; [exact Hok | reflexivity].
  - pose proof (simple_Write_state X E P x Hok) as Hok'.
    cbn [simple_writes concat].
    destruct (simple_Write {| s_crlfBuf := P |} x) as [[P1] w] eqn:Ew.
    cbn [fst snd s_crlfBuf] in Hok'.
    destruct (IH _ _ _ Hok') as (E' & P' & Hok2 & Heq).
    exists E', P'. rewrite app_assoc. split; [exact Hok2|].
    rewrite concat_app, app_assoc. exact Heq.
Qed.

Lemma simple_state_unique X E P E' P' :
  simple_state_ok X E P -> simple_state_ok X E' P' -> E = E' /\ P = P'.
Proof.
  intros (H1 & H2 & _) (H1' & H2' & _).
  assert (HB : E ++ P = E' ++ P') by congruence.
  assert (HL : length E = length E') by (rewrite <- H2, <- H2', HB; reflexivity).
  apply app_inj_1 in HB; [exact HB | exact HL].
Qed.

Lemma simple_state_init : simple_state_ok [] [] [].
Proof.
  split; [reflexivity|]. split; [reflexivity|]. split.
  - intros [k Hk]. apply (f_equal length) in Hk. rewrite length_app in Hk. cbn in Hk. lia.
  - split; [intros _; discriminate|]. exists 0. left. reflexivity.
Qed.

Lemma simple_body_chunking_irrelevant chunks :
  concat (simple_writes {| s_crlfBuf := [] |} chunks) =
  concat (simple_writes {| s_crlfBuf := [] |} [concat chunks]).
Proof.
  destruct (simple_writes_state chunks [] [] [] simple_state_init) as (E1 & P1 & Ok1 & Eq1).
  destruct (simple_writes_state [concat chunks] [] [] [] simple_state_init)
    as (E2 & P2 & Ok2 & Eq2).
  cbn [concat app] in Ok1, Ok2, Eq1, Eq2. rewrite app_nil_r in Ok2.
  destruct (simple_state_unique _ _ _ _ _ Ok1 Ok2) as [-> ->].
  rewrite Eq1, Eq2. reflexivity.
Qed.

(** X1: the simple body canonicalizer writes the same bytes, [Close]
    included, whichever way the body is cut into [Write] calls. *)
Theorem simple_CanonicalizeBody_chunking chunks :
  concat (CanonicalizeBody CanonicalizationSimple chunks) =
  concat (CanonicalizeBody CanonicalizationSimple [concat chunks]).
Proof. apply simple_body_chunking_irrelevant. Qed.

Lemma fixCRLF_go_fixed prev b : crlf_fixed prev (fixCRLF_go prev b) = true.
Proof.
  revert prev. induction b as [|c b IH]; intros prev; [reflexivity|].
  cbn [fixCRLF_go]. fold (prev_is_CR prev).
  destruct (beq c LF && negb (prev_is_CR prev)) eqn:Ec; cbn [app crlf_fixed].
  - apply andb_prop in Ec as [Ec _]. unfold beq in Ec. apply bool_decide_eq_true in Ec.
    subst c. rewrite IH. reflexivity.
  - rewrite IH, andb_true_r.
    destruct (beq c LF), (prev_is_CR prev); cbn in *; congruence.
Qed.

Lemma fixCRLF_go_id prev b : crlf_fixed prev b = true -> fixCRLF_go prev b = b.
Proof.
  revert prev. induction b as [|c b IH]; intros prev H; [reflexivity|].
  cbn [crlf_fixed] in H. apply andb_prop in H as [H1 H2].
  cbn [fixCRLF_go]. fold (prev_is_CR prev).
  replace (beq c LF && negb (prev_is_CR prev)) with false
    by (destruct (beq c LF), (prev_is_CR prev); cbn in *; congruence).
  cbn [app]. rewrite IH by exact H2. reflexivity.
Qed.

Lemma fixCRLF_go_filter prev b :
  filter (fun c => c <> CR) (fixCRLF_go prev b) = filter (fun c => c <> CR) b.
Proof.
  revert prev. induction b as [|c b IH]; intros prev; [reflexivity|].
  cbn [fixCRLF_go]. rewrite filter_app, IH.
  change (c :: b) with ([c] ++ b). rewrite (filter_app _ [c] b).
  destruct (_ && _); [|reflexivity].
  change [CR; c] with ([CR] ++ [c]). rewrite filter_app.
  rewrite (filter_cons_False _ CR) by (intros H; apply H; reflexivity).
  reflexivity.
Qed.

(** X2: [fixCRLF] leaves no bare LF, leaves input without bare LF
    unchanged, is idempotent, and only inserts CR bytes. *)
Theorem fixCRLF_spec b :
  crlf_fixed None (fixCRLF b) = true /\
  (crlf_fixed None b = true -> fixCRLF b = b) /\
  fixCRLF (fixCRLF b) = fixCRLF b /\
  filter (fun c => c <> CR) (fixCRLF b) = filter (fun c => c <> CR) b.
Proof.
  unfold fixCRLF. split; [apply fixCRLF_go_fixed|]. split; [apply fixCRLF_go_id|].
  split; [apply fixCRLF_go_id, fixCRLF_go_fixed | apply fixCRLF_go_filter].
Qed.

(** X3: [readHeader] on non-empty, LF-free header lines followed by the
    empty line returns the rest unread and fields that [writeHeader] writes
    back as exactly the bytes read. *)
Theorem writeHeader_readHeader ls body :
  Forall (fun l => l <> [] /\ LF ∉ l) ls ->
  exists h, readHeader (header_lines ls ++ crlf ++ body) = inl (h, body) /\
            writeHeader h ++ body = header_lines ls ++ crlf ++ body.
Proof.
  intros Hok.
  assert (Hok' : Forall (fun l => l <> [] /\ ~ In LF l) ls).
  { eapply Forall_impl; [exact Hok|]. intros l [H1 H2]. split; [exact H1|].
    rewrite <- list_elem_of_In. exact H2. }
  destruct (header_step_groups ls) as (gs & Hf & Hc & _).
  exists (map header_lines gs). split.
  - unfold readHeader. rewrite readHeader_loop_lines by
      (first [exact Hok' | rewrite length_app; pose proof (header_lines_length ls); lia]).
    rewrite Hf.
    destruct (S (length (header_lines ls ++ crlf ++ body)) - length ls) as [|f] eqn:Ef.
    + rewrite length_app in Ef. pose proof (header_lines_length ls). simpl in Ef. lia.
    + reflexivity.
  - unfold writeHeader. rewrite concat_map_header_lines, Hc, <- app_assoc. reflexivity.
Qed.

Lemma foldl_header_step_cont H x ls :
  Forall (fun l => starts_wsp l = true) ls ->
  foldl header_step (H ++ [x]) ls = H ++ [x ++ header_lines ls].
Proof.
  revert x. induction ls as [|l ls IH]; intros x Hw.
  - rewrite app_nil_r. reflexivity.
  - inversion Hw as [|? ? Hl Hw']; subst. cbn [foldl].
    assert (Hs : header_step (H ++ [x]) l = H ++ [x ++ l ++ crlf]).
    { unfold header_step. rewrite Hl.
      replace (bool_decide (H ++ [x] <> [])) with true
        by (symmetry; apply bool_decide_eq_true; intros Hn;
            apply app_eq_nil in Hn as [_ Hn]; discriminate).
      cbn [andb]. unfold append_last. rewrite last_snoc, removelast_last. reflexivity. }
    rewrite Hs, IH by exact Hw'. unfold header_lines. cbn [map concat].
    rewrite !app_assoc. reflexivity.
Qed.

Lemma foldl_header_step_groups gs :
  Forall (fun g => g <> [] /\ Forall (fun l => starts_wsp l = true) (tail g)) gs ->
  Forall (fun g => starts_wsp (hd [] g) = false) (drop 1 gs) ->
  foldl header_step [] (concat gs) = map header_lines gs.
Proof.
  induction gs as [|g gs IH] using rev_ind; intros Hg Hh; [reflexivity|].
  apply Forall_app in Hg as [Hg Hg1]. inversion Hg1 as [|? ? [Hne Ht] _]; subst.
  rewrite concat_app, foldl_app. cbn [concat]. rewrite app_nil_r.
  assert (Hh' : Forall (fun g => starts_wsp (hd [] g) = false) (drop 1 gs)).
  { destruct gs as [|y ys]; [constructor|]. cbn [drop app] in Hh |- *.
    apply Forall_app in Hh. tauto. }
  rewrite IH by assumption.
  destruct g as [|l g]; [contradiction|]. cbn [tail] in Ht. cbn [foldl].
  assert (Hs : header_step (map header_lines gs) l = map header_lines gs ++ [l ++ crlf]).
  { unfold header_step. destruct gs as [|y ys]; [reflexivity|].
    cbn [drop app] in Hh. apply Forall_app in Hh as [_ Hh]. inversion Hh as [|? ? Hl _].
    cbn [hd] in Hl. rewrite Hl, andb_false_r. reflexivity. }
  rewrite Hs, foldl_header_step_cont by exact Ht.
  rewrite map_app. reflexivity.
Qed.

(** X4: [readHeader] reads back what [writeHeader] wrote, for fields made
    of non-empty LF-free lines whose continuation lines start with SP or
    HTAB and whose first lines (after the first field) do not. *)
Theorem readHeader_writeHeader gs body :
  Forall (fun g => g <> [] /\ Forall (fun l => l <> [] /\ LF ∉ l) g /\
                   Forall (fun l => starts_wsp l = true) (tail g)) gs ->
  Forall (fun g => starts_wsp (hd [] g) = false) (drop 1 gs) ->
  readHeader (writeHeader (map header_lines gs) ++ body) = inl (map header_lines gs, body).
Proof.
  intros Hg Hh.
  assert (Hok : Forall (fun l => l <> [] /\ ~ In LF l) (concat gs)).
  { apply Forall_concat. eapply Forall_impl; [exact Hg|]. intros g (_ & Hl & _).
    eapply Forall_impl; [exact Hl|]. intros l [H1 H2]. split; [exact H1|].
    rewrite <- list_elem_of_In. exact H2. }
  unfold writeHeader. rewrite concat_map_header_lines, <- app_assoc.
  unfold readHeader. rewrite readHeader_loop_lines by
    (first [exact Hok | rewrite length_app; pose proof (header_lines_length (concat gs)); lia]).
  rewrite foldl_header_step_groups.
  - destruct (S (length (header_lines (concat gs) ++ crlf ++ body)) - length (concat gs))
      as [|f] eqn:Ef.
    + rewrite length_app in Ef. pose proof (header_lines_length (concat gs)). simpl in Ef. lia.
    + reflexivity.
  - eapply Forall_impl; [exact Hg|]. intros g (H1 & _ & H3). tauto.
  - exact Hh.
Qed.

Lemma fold_chunks_pieces f buf :
  length buf <= f ->
  exists ps, fold_chunks f false buf = concat (map (fun p => [CR; LF; SP] ++ p) ps) /\
             fold_chunks f true buf = join [CR; LF; SP] ps /\
             concat ps = buf /\ Forall (fun p => 1 <= length p <= 75) ps.
Proof.
  revert buf. induction f as [|f IH]; intros buf Hl.
  - destruct buf; [|simpl in Hl; lia]. exists []. repeat split; constructor.
  - destruct buf as [|c b].
    + exists []. repeat split; constructor.
    + destruct (IH (drop 75 (c :: b))) as (ps & H1 & _ & H3 & H4).
      { rewrite length_drop. simpl in *. lia. }
      exists (take 75 (c :: b) :: ps).
      change (fold_chunks (S f) false (c :: b))
        with ([CR; LF; SP] ++ take 75 (c :: b) ++ fold_chunks f false (drop 75 (c :: b))).
      change (fold_chunks (S f) true (c :: b))
        with ([] ++ take 75 (c :: b) ++ fold_chunks f false (drop 75 (c :: b))).
      split; [|split; [|split]].
      * cbn [map concat]. rewrite H1, <- app_assoc. reflexivity.
      * cbn [join app]. rewrite H1. reflexivity.
      * cbn [concat]. rewrite H3. apply take_drop.
      * constructor; [|exact H4]. rewrite length_take. cbn [length]. lia.
Qed.

(** X5: [foldHeaderField] cuts its input into pieces of 1 to 75 bytes
    joined by CRLF SP; removing the inserted CRLF SP gives the input back. *)
Theorem foldHeaderField_lossless kv :
  exists ps, foldHeaderField kv = join [CR; LF; SP] ps /\ concat ps = kv /\
             Forall (fun p => 1 <= length p <= 75) ps.
Proof.
  destruct (fold_chunks_pieces (length kv) kv (le_n _)) as (ps & _ & H2 & H3 & H4).
  exists ps. unfold foldHeaderField. auto.
Qed.

Lemma Split_ne sep s : Split sep s <> [].
Proof.
  destruct s as [|c s]; [discriminate|]. cbn [Split].
  destruct (beq c sep); [discriminate|]. destruct (Split sep s); discriminate.
Qed.

Lemma join_Split sep s : join [sep] (Split sep s) = s.
Proof.
  induction s as [|c s IH]; [reflexivity|]. cbn [Split].
  destruct (beq c sep) eqn:Ec.
  - unfold beq in Ec. apply bool_decide_eq_true in Ec. subst sep.
    destruct (Split c s) as [|x r] eqn:Es; [exact (False_rect _ (Split_ne _ _ Es))|].
    cbn [join app map concat] in *. rewrite IH. reflexivity.
  - destruct (Split sep s) as [|x r] eqn:Es; [exact (False_rect _ (Split_ne _ _ Es))|].
    cbn [join app] in *. rewrite IH. reflexivity.
Qed.

Lemma join_cons sep x xs : xs <> [] -> join sep (x :: xs) = x ++ sep ++ join sep xs.
Proof.
  destruct xs as [|y ys]; [congruence|]. intros _.
  cbn [join map concat]. rewrite <- app_assoc. reflexivity.
Qed.

Lemma wrap_loop_pieces hs avail :
  hs <> [] ->
  exists p ps, wrap_loop hs avail = p ++ concat (map (fun q => crlf ++ [SP] ++ q) ps) /\
               p ++ concat ps = join [":"%char] hs ++ [";"%char].
Proof.
  revert avail. induction hs as [|h rest IH]; intros avail Hne; [congruence|].
  cbn [wrap_loop].
  destruct rest as [|h2 rest'].
  - cbn [wrap_loop]. rewrite app_nil_r.
    destruct (avail <? len h + 1)%Z.
    + exists [], [h ++ [";"%char]]. cbn. rewrite !app_nil_r. split; reflexivity.
    + exists (h ++ [";"%char]), []. cbn. rewrite !app_nil_r. split; reflexivity.
  -
    destruct (avail <? len h + 1)%Z.
    + destruct (IH (75 - (len h + 1))%Z ltac:(discriminate)) as (p & ps & H1 & H2).
      exists [], ((h ++ [":"%char] ++ p) :: ps). split.
      * rewrite H1. simpl. rewrite <- !app_assoc. simpl. rewrite <- ?app_assoc. reflexivity.
      * cbn [app concat]. rewrite join_cons by discriminate.
        rewrite <- !app_assoc. cbn [app]. rewrite H2. rewrite <- ?app_assoc. reflexivity.
    + destruct (IH (avail - (len h + 1))%Z ltac:(discriminate)) as (p & ps & H1 & H2).
      exists (h ++ [":"%char] ++ p), ps. split.
      * rewrite H1. simpl. rewrite <- !app_assoc. simpl. rewrite <- ?app_assoc. reflexivity.
      * rewrite join_cons by discriminate.
        rewrite <- !app_assoc. cbn [app]. rewrite H2. rewrite <- ?app_assoc. reflexivity.
Qed.

(** X6: [wrapHeaders] writes [h=], the value and [;], only adding CRLF SP
    line breaks. *)
Theorem wrapHeaders_lossless values :
  exists ps, wrapHeaders values = join (crlf ++ [SP]) ps /\
             concat ps = bs "h=" ++ values ++ [";"%char].
Proof.
  destruct (wrap_loop_pieces (Split ":"%char values) (75 - len (bs " h="))%Z (Split_ne _ _))
    as (p & ps & H1 & H2).
  exists ((bs "h=" ++ p) :: ps). unfold wrapHeaders. rewrite H1. split.
  - cbn [join]. rewrite <- app_assoc. reflexivity.
  - cbn [concat]. rewrite <- app_assoc, H2, join_Split. reflexivity.
Qed.

Lemma fmt_loop_app params ks1 ks2 avail :
  exists avail', fmt_loop params (ks1 ++ ks2) avail =
                 fmt_loop params ks1 avail ++ fmt_loop params ks2 avail'.
Proof.
  revert avail. induction ks1 as [|k ks IH]; intros avail.
  - exists avail. reflexivity.
  - cbn [app fmt_loop].
    destruct ((avail <? len k + len (idx params k) + 3)%Z || bool_decide (k = bs "b"));
      [destruct (IH (75 - (len k + len (idx params k) + 3))%Z) as [a' Ha]
      |destruct (IH (avail - (len k + len (idx params k) + 3))%Z) as [a' Ha]];
      exists a'; rewrite Ha; rewrite <- !app_assoc; cbn [app]; rewrite <- ?app_assoc; reflexivity.
Qed.

(** X7: when the map has a [b] tag, [formatHeaderParams] ends with it on a
    line of its own, folded when its value is longer than 71 bytes. *)
Theorem formatHeaderParams_b_last m v :
  m !! bs "b" = Some v ->
  exists pre, formatHeaderParams m =
    pre ++ crlf ++ [SP] ++
    (if 71 <? length v then foldHeaderField (bs "b=" ++ v ++ bs ";")
     else bs "b=" ++ v ++ bs ";").
Proof.
  intros Hb. unfold formatHeaderParams, fmt_keys.
  assert (Hf : existsb (fun k => bool_decide (k = bs "b")) (map fst (map_to_list m)) = true).
  { apply existsb_exists. exists (bs "b"). split; [|apply bool_decide_eq_true; reflexivity].
    apply in_map_iff. exists (bs "b", v). split; [reflexivity|].
    apply list_elem_of_In. apply elem_of_map_to_list. exact Hb. }
  rewrite Hf.
  destruct (fmt_loop_app m (sort_by (key_less m)
              (filter (fun k => k <> bs "b") (map fst (map_to_list m)))) [bs "b"]
              (75 - len headerFieldName - len (bs ": "))%Z) as [a' ->].
  eexists. f_equal. cbn [fmt_loop]. unfold idx. rewrite Hb. cbn [default]. unfold id.
  rewrite orb_true_r. rewrite app_nil_r.
  replace (bool_decide (bs "b" = bs "h")) with false by reflexivity.
  replace (75 - (len (bs "b") + len v + 3) <? 0)%Z with (71 <? length v).
  - destruct (71 <? length v); reflexivity.
  - unfold len. cbn [bs list_ascii_of_string length].
    destruct (71 <? length v) eqn:E.
    + apply Nat.ltb_lt in E. symmetry. apply Z.ltb_lt. lia.
    + apply Nat.ltb_ge in E. symmetry. apply Z.ltb_ge. lia.
Qed.

(** X8: [limitedWriter.Write] never fails; with no budget left it drops
    everything and reports [len(b)]; otherwise it passes on the first
    [min(N, len(b))] bytes and reduces [N] by that number. *)
Theorem limitedWriter_Write_count w b :
  let '(w', n, err) := limitedWriter_Write w b in
  err = None /\
  ((lw_N w <= 0)%Z -> w' = w /\ n = len b) /\
  ((0 < lw_N w)%Z ->
     n = Z.min (lw_N w) (len b) /\
     lw_W w' = lw_W w ++ take (Z.to_nat n) b /\ lw_N w' = (lw_N w - n)%Z).
Proof.
  unfold limitedWriter_Write.
  destruct (lw_N w <=? 0)%Z eqn:E0.
  - apply Z.leb_le in E0. split; [reflexivity|]. split; [intros _; split; reflexivity|].
    intros H. lia.
  - apply Z.leb_gt in E0.
    destruct (len b >? lw_N w)%Z eqn:E1.
    + apply Z.gtb_lt in E1.
      assert (Hl : len (take (Z.to_nat (lw_N w)) b) = lw_N w).
      { unfold len in *. rewrite length_take. lia. }
      cbn [lw_W lw_N]. rewrite Hl.
      split; [reflexivity|]. split; [intros H; lia|]. intros _.
      replace (lw_N w + (lw_N w - lw_N w))%Z with (lw_N w) by lia.
      split; [lia|]. split; reflexivity.
    + rewrite Z.gtb_ltb in E1. apply Z.ltb_ge in E1. cbn [lw_W lw_N].
      split; [reflexivity|]. split; [intros H; lia|]. intros _.
      rewrite Z.add_0_r. split; [lia|]. split; [|reflexivity].
      rewrite take_ge by (unfold len in *; lia). reflexivity.
Qed.

Lemma trim_front_spec sp2 sp3 s :
  (exists k, s = k ++ trim_front sp2 sp3 s) /\
  (forall c r, trim_front sp2 sp3 s = c :: r -> asciiSpace c = false).
Proof.
  remember (length s) as n eqn:En. revert s En.
  induction n as [n IH] using lt_wf_ind. intros s En.
  destruct s as [|c s1]; [split; [exists []; reflexivity | discriminate]|].
  cbn [trim_front].
  assert (Hkeep : (exists k, c :: s1 = k ++ c :: s1) /\
                  (asciiSpace c = false -> forall c' r, c :: s1 = c' :: r -> asciiSpace c' = false)).
  { split; [exists []; reflexivity|]. intros Hc c' r [= <- _]. exact Hc. }
  destruct (asciiSpace c) eqn:Ec.
  - destruct (IH (length s1) ltac:(simpl in En; lia) s1 eq_refl) as [[k Hk] H2].
    split; [exists (c :: k); rewrite Hk at 1; reflexivity | exact H2].
  - destruct s1 as [|c2 s2]; [split; [exists []; reflexivity | intros ? ? [= <- _]; exact Ec]|].
    destruct (sp2 c c2).
    + destruct (IH (length s2) ltac:(simpl in En; lia) s2 eq_refl) as [[k Hk] H2].
      split; [exists (c :: c2 :: k); rewrite Hk at 1; reflexivity | exact H2].
    + destruct s2 as [|c3 s3]; [split; [exists []; reflexivity | intros ? ? [= <- _]; exact Ec]|].
      destruct (sp3 c c2 c3).
      * destruct (IH (length s3) ltac:(simpl in En; lia) s3 eq_refl) as [[k Hk] H2].
        split; [exists (c :: c2 :: c3 :: k); rewrite Hk at 1; reflexivity | exact H2].
      * split; [exists []; reflexivity | intros ? ? [= <- _]; exact Ec].
Qed.

Lemma TrimSpace_spec s :
  (exists a b, s = a ++ TrimSpace s ++ b) /\
  (forall c, head (TrimSpace s) = Some c -> asciiSpace c = false) /\
  (forall c, last (TrimSpace s) = Some c -> asciiSpace c = false).
Proof.
  unfold TrimSpace, TrimLeftSpace, TrimRightSpace.
  destruct (trim_front_spec space2 space3 s) as [[a Ha] HL].
  set (L := trim_front space2 space3 s) in *.
  destruct (trim_front_spec (fun b a => space2 a b) (fun c b a => space3 a b c) (rev L))
    as [[k Hk] HR].
  set (T := trim_front _ _ (rev L)) in *. clearbody T.
  assert (HLT : L = rev T ++ rev k).
  { rewrite <- rev_app_distr, <- Hk, rev_involutive. reflexivity. }
  split; [|split].
  - exists a, (rev k). rewrite Ha at 1. rewrite HLT. reflexivity.
  - intros c Hc. destruct (rev T) as [|c' r] eqn:ET; [discriminate|].
    cbn in Hc. injection Hc as ->. apply (HL c (r ++ rev k)).
    rewrite HLT. reflexivity.
  - intros c Hc. destruct T as [|c' r]; [discriminate|].
    cbn [rev] in Hc. rewrite last_snoc in Hc. injection Hc as Hc. rewrite Hc in *.
    eapply HR. reflexivity.
Qed.

Lemma SP_SP_cons c o a b :
  c :: o = a ++ [SP; SP] ++ b -> (c = SP /\ head o = Some SP) \/ exists a', o = a' ++ [SP; SP] ++ b.
Proof.
  intros Hkl. destruct a as [|x a].
  - left. cbn in Hkl. injection Hkl as -> Ho. subst o. split; reflexivity.
  - right. exists a. cbn in Hkl. injection Hkl as _ ->. reflexivity.
Qed.

Lemma reduceWS_spec in_run s :
  Forall (fun c => c <> CR /\ c <> LF /\ c <> HTAB) (reduceWS in_run s) /\
  (forall a b, reduceWS in_run s <> a ++ [SP; SP] ++ b) /\
  (in_run = true -> head (reduceWS in_run s) <> Some SP).
Proof.
  revert in_run. induction s as [|c s IH]; intros in_run.
  - split; [constructor|]. split; [|discriminate].
    intros a b Hkl. destruct a; discriminate.
  - cbn [reduceWS]. destruct (reduce_ws_byte c) eqn:Ec.
    + destruct (IH true) as (H1 & H2 & H3). specialize (H3 eq_refl).
      destruct in_run; cbn [app].
      * split; [exact H1|]. split; [exact H2|]. intros _. exact H3.
      * split; [constructor; [unfold SP, CR, LF, HTAB; repeat split; discriminate|exact H1]|].
        split; [|discriminate].
        intros a b Hi. apply SP_SP_cons in Hi as [[_ Hh]|[a' Hi]];
          [exact (H3 Hh)|exact (H2 _ _ Hi)].
    + destruct (IH false) as (H1 & H2 & _).
      assert (Hc : (c <> CR /\ c <> LF /\ c <> HTAB) /\ c <> SP).
      { unfold reduce_ws_byte, beq in Ec.
        repeat rewrite orb_false_iff in Ec. destruct Ec as [[[E1 E2] E3] E4].
        apply bool_decide_eq_false in E1, E2, E3, E4. tauto. }
      split; [constructor; [exact (proj1 Hc)|exact H1]|]. split.
      * intros a b Hi. apply SP_SP_cons in Hi as [[Hs _]|[a' Hi]];
          [exact (proj2 Hc Hs)|exact (H2 _ _ Hi)].
      * intros _ Hh. cbn in Hh. injection Hh as Hs. exact (proj2 Hc Hs).
Qed.

(** X9: relaxed header canonicalization gives the trimmed lower-cased name,
    [:], a value without CR, LF, HTAB, doubled SP or SP at either end, and
    CRLF; the value is empty when there is no colon. *)
Theorem relaxed_CanonicalizeHeader_value ToLower s :
  exists v,
    CanonicalizeHeader ToLower CanonicalizationRelaxed s =
      TrimSpace (ToLower (match cut_first ":"%char s with Some (k, _) => k | None => s end))
        ++ bs ":" ++ v ++ crlf /\
    Forall (fun c => c <> CR /\ c <> LF /\ c <> HTAB) v /\
    (forall a b, v <> a ++ [SP; SP] ++ b) /\ head v <> Some SP /\ last v <> Some SP /\
    (cut_first ":"%char s = None -> v = []).
Proof.
  cbn [CanonicalizeHeader]. unfold SplitN2.
  destruct (cut_first ":"%char s) as [[k v0]|] eqn:Ec.
  - exists (TrimSpace (reduceWS false v0)). split; [reflexivity|].
    destruct (reduceWS_spec false v0) as (H1 & H2 & _).
    destruct (TrimSpace_spec (reduceWS false v0)) as ([a [b Hab]] & Hh & Hl).
    set (v := TrimSpace (reduceWS false v0)) in *.
    split; [|split; [|split; [|split]]].
    + rewrite Hab in H1. apply Forall_app in H1 as [_ H1]. apply Forall_app in H1 as [H1 _].
      exact H1.
    + intros a' b' Hi. apply (H2 (a ++ a') (b' ++ b)). rewrite Hab, Hi.
      rewrite <- !app_assoc. reflexivity.
    + intros Hs. specialize (Hh _ Hs). discriminate.
    + intros Hs. specialize (Hl _ Hs). discriminate.
    + discriminate.
  - exists []. split; [reflexivity|]. split; [constructor|]. split.
    + intros a b Hkl. destruct a; discriminate.
    + split; [discriminate|]. split; [discriminate|]. intros _. reflexivity.
Qed.

Lemma getstring_loop_progress nb fuel e em :
  em - e < fuel -> e <= em -> (forall x, x < em -> x < nb x) ->
  exists r, getstring_loop fuel nb e em = Some r /\ e <= r <= em.
Proof.
  revert e. induction fuel as [|f IH]; intros e Hf He Hnb; [lia|].
  cbn [getstring_loop]. destruct (e <? em) eqn:E1.
  - apply Nat.ltb_lt in E1. specialize (Hnb e E1) as Hn.
    destruct (nb e <=? em) eqn:E2.
    + apply Nat.leb_le in E2. destruct (IH (nb e)) as (r & Hr & H1 & H2); [lia|lia|exact Hnb|].
      exists r. split; [exact Hr|lia].
    + exists e. split; [reflexivity|lia].
  - apply Nat.ltb_ge in E1. exists e. split; [reflexivity|lia].
Qed.

Lemma getstring_loop_stuck nb fuel e em :
  nb e = e -> e < em -> getstring_loop fuel nb e em = None.
Proof.
  intros Hn He. induction fuel as [|f IH]; [reflexivity|].
  cbn [getstring_loop]. rewrite Hn.
  replace (e <? em) with true by (symmetry; apply Nat.ltb_lt; lia).
  replace (e <=? em) with true by (symmetry; apply Nat.leb_le; lia).
  exact IH.
Qed.

Lemma GetString_body_spec tv Idx nb limit :
  Idx < length tv -> 1 <= limit ->
  (forall x em, x < em -> em <= length tv -> x < nb x em) ->
  exists s ok i, GetString_body tv Idx nb limit = Some (s, ok, i) /\
    (if ok then Idx < i <= length tv /\ s = take (i - Idx) (drop Idx tv)
     else s = [] /\ i = Idx).
Proof.
  intros HI Hl Hnb. unfold GetString_body.
  destruct (length tv - Idx <=? limit) eqn:E1.
  - exists (drop Idx tv), true, (length tv). split; [reflexivity|].
    split; [lia|]. rewrite take_ge; [reflexivity|]. rewrite length_drop. lia.
  - apply Nat.leb_gt in E1.
    set (em := if Idx + limit <? length tv then Idx + limit else length tv).
    assert (Hem : Idx < em <= length tv)
      by (unfold em; destruct (Idx + limit <? length tv) eqn:E; 
          [apply Nat.ltb_lt in E | apply Nat.ltb_ge in E]; lia).
    destruct (getstring_loop_progress (fun e => nb e em) (S em) Idx em)
      as (r & Hr & Hr1 & Hr2); [lia|lia| |].
    { intros x Hx. apply Hnb; lia. }
    rewrite Hr. destruct (Idx <? r) eqn:E2.
    + apply Nat.ltb_lt in E2. exists (take (r - Idx) (drop Idx tv)), true, r.
      split; [reflexivity|]. split; [lia|reflexivity].
    + exists [], false, Idx. split; [reflexivity|]. split; reflexivity.
Qed.

Lemma TagAndValue_set_Idx t i : TagAndValue (set_Idx t i) = TagAndValue t.
Proof. destruct t; reflexivity. Qed.

Lemma tag_Idx_set_Idx t i : tag_Idx (set_Idx t i) = i.
Proof. destruct t; reflexivity. Qed.

Lemma tag_TagLen_set_Idx t i : tag_TagLen (set_Idx t i) = tag_TagLen t.
Proof. destruct t; reflexivity. Qed.

Lemma delim_NextBreak_progress d x :
  1 <= dl_TagLen d -> x < length (dl_TagAndValue d) -> x < delim_NextBreak d x.
Proof.
  intros H1 Hx. unfold delim_NextBreak.
  destruct (x =? 0) eqn:E0; [apply Nat.eqb_eq in E0; lia|].
  destruct (x =? dl_TagLen d) eqn:E1; [apply Nat.eqb_eq in E1; lia|].
  destruct (bool_decide (dl_Delimiter d = [])) eqn:E2; [lia|].
  apply bool_decide_eq_false in E2.
  destruct (Index _ _) as [[|i]|]; [|lia|lia].
  destruct (dl_Delimiter d); [congruence|]. cbn [length]. lia.
Qed.

Lemma b64_NextBreak_progress b x em :
  1 <= b64_TagLen b -> x < em -> em <= length (b64_TagAndValue b) -> x < b64_NextBreak b x em.
Proof.
  intros H1 Hx Hem. unfold b64_NextBreak.
  destruct (x =? 0) eqn:E0; [apply Nat.eqb_eq in E0; lia|].
  destruct (x =? b64_TagLen b) eqn:E1; [apply Nat.eqb_eq in E1; lia|].
  destruct (em <? length (b64_TagAndValue b)); lia.
Qed.

Lemma GetString_spec t limit :
  1 <= tag_TagLen t -> tag_Idx t < length (TagAndValue t) -> 1 <= limit ->
  exists s ok t', GetString t limit = Some (s, ok, t') /\
    TagAndValue t' = TagAndValue t /\ tag_TagLen t' = tag_TagLen t /\
    (if ok then tag_Idx t < tag_Idx t' <= length (TagAndValue t) /\
                s = take (tag_Idx t' - tag_Idx t) (drop (tag_Idx t) (TagAndValue t))
     else s = [] /\ tag_Idx t' = tag_Idx t).
Proof.
  intros H1 HI Hl.
  assert (Hb : exists s ok i, (match t with
           | TagDelim d =>
               GetString_body (dl_TagAndValue d) (dl_Idx d) (fun e _ => delim_NextBreak d e) limit
           | TagBase64 b =>
               GetString_body (b64_TagAndValue b) (b64_Idx b) (b64_NextBreak b) limit
           end) = Some (s, ok, i) /\
    (if ok then tag_Idx t < i <= length (TagAndValue t) /\
                s = take (i - tag_Idx t) (drop (tag_Idx t) (TagAndValue t))
     else s = [] /\ i = tag_Idx t)).
  { destruct t as [d|b]; cbn [tag_Idx TagAndValue tag_TagLen] in *.
    - apply GetString_body_spec; [exact HI|exact Hl|].
      intros x em Hx Hem. apply delim_NextBreak_progress; [exact H1|lia].
    - apply GetString_body_spec; [exact HI|exact Hl|].
      intros x em Hx Hem. apply b64_NextBreak_progress; assumption. }
  destruct Hb as (s & ok & i & Hr & Hs).
  exists s, ok, (set_Idx t i). unfold GetString. rewrite Hr.
  split; [reflexivity|]. rewrite TagAndValue_set_Idx, tag_Idx_set_Idx, tag_TagLen_set_Idx.
  split; [reflexivity|]. split; [reflexivity|]. exact Hs.
Qed.

Lemma addtag_loop_done fuel sig tag :
  Done tag = true -> addtag_loop (S fuel) sig tag = Some sig.
Proof. intros Hd. cbn [addtag_loop]. rewrite Hd. reflexivity. Qed.

Lemma addtag_loop_spec fuel sig tag :
  1 <= tag_TagLen tag -> tag_Idx tag <= length (TagAndValue tag) ->
  addtag_measure sig tag < fuel ->
  exists sig' segs, addtag_loop fuel sig tag = Some sig' /\
    Buf sig' = Buf sig ++ concat (map (fun '(b, p) => (if b : bool then [CR; LF; SP] else []) ++ p) segs)
               ++ (if Done tag then [] else bs ";") /\
    concat (map snd segs) = drop (tag_Idx tag) (TagAndValue tag).
Proof.
  revert sig tag. induction fuel as [|f IH]; intros sig tag HL HI Hf; [lia|].
  destruct (Done tag) eqn:Ed.
  - exists sig, []. rewrite addtag_loop_done by exact Ed. split; [reflexivity|].
    split; [cbn; rewrite !app_nil_r; reflexivity|].
    unfold Done in Ed. apply Nat.eqb_eq in Ed. rewrite Ed, drop_all. reflexivity.
  - assert (HI' : tag_Idx tag < length (TagAndValue tag))
      by (unfold Done in Ed; apply Nat.eqb_neq in Ed; lia).
    cbn [addtag_loop]. rewrite Ed.
    destruct (80 - LineLen sig - 1 - 2 <=? 0)%Z eqn:Em.
    + apply Z.leb_le in Em.
      destruct (IH {| Buf := Buf sig ++ [CR; LF; SP]; LineLen := 1 |} tag HL HI)
        as (sig' & segs & H1 & H2 & H3).
      { unfold addtag_measure in *. cbn [LineLen] in *.
        replace (LineLen sig <=? 1)%Z with false in Hf by (symmetry; apply Z.leb_gt; lia).
        cbn in Hf |- *. lia. }
      exists sig', ((true, []) :: segs). split; [exact H1|]. rewrite Ed in H2.
      split; [rewrite H2; cbn [Buf map concat]; rewrite app_nil_r, <- !app_assoc; reflexivity|].
      exact H3.
    + apply Z.leb_gt in Em.
      destruct (GetString_spec tag (Z.to_nat (80 - LineLen sig - 1 - 2)) HL HI' ltac:(lia))
        as (s & ok & t1 & Hg & Htv & Htl & Hs).
      rewrite Hg. destruct ok.
      * destruct Hs as [Hi Hs]. cbn [negb andb].
        set (sig1 := {| Buf := Buf sig ++ s; LineLen := LineLen sig + len s |}).
        destruct (Done t1) eqn:Ed1.
        { unfold Done in Ed1. apply Nat.eqb_eq in Ed1.
          destruct f as [|f']; [unfold addtag_measure in Hf; lia|].
          rewrite addtag_loop_done by (unfold Done; apply Nat.eqb_eq; exact Ed1).
          eexists _, [(false, s)]. split; [reflexivity|]. cbn [Buf].
          split; [unfold sig1; cbn [Buf map concat app]; rewrite ?app_nil_r, <- ?app_assoc; reflexivity|].
          cbn [map concat snd]. rewrite app_nil_r, Hs, Ed1, Htv.
          apply take_ge. rewrite length_drop. lia. }
        { destruct (IH sig1 t1) as (sig' & segs & H1 & H2 & H3).
          - rewrite Htl. exact HL.
          - rewrite Htv. lia.
          - unfold addtag_measure in *. rewrite Htv.
            destruct (LineLen sig1 <=? 1)%Z, (LineLen sig <=? 1)%Z; lia.
          - exists sig', ((false, s) :: segs). split; [exact H1|]. rewrite Ed1 in H2.
            split.
            + rewrite H2. unfold sig1. cbn [Buf map concat app].
              rewrite <- !app_assoc. reflexivity.
            + cbn [map concat snd]. rewrite H3, Hs, Htv.
              rewrite <- (take_drop (tag_Idx t1 - tag_Idx tag) (drop (tag_Idx tag) (TagAndValue tag))) at 2.
              rewrite drop_drop. f_equal. f_equal. lia. }
      * destruct Hs as [-> Hi].
        destruct (1 <? LineLen sig)%Z eqn:El; cbn [negb andb].
        { apply Z.ltb_lt in El.
          destruct (IH {| Buf := Buf sig ++ [CR; LF; SP]; LineLen := 1 |} t1)
            as (sig' & segs & H1 & H2 & H3).
          - rewrite Htl. exact HL.
          - rewrite Htv, Hi. exact HI.
          - unfold addtag_measure in *. cbn [LineLen] in *. rewrite Htv, Hi.
            replace (LineLen sig <=? 1)%Z with false in Hf by (symmetry; apply Z.leb_gt; lia).
            cbn in Hf |- *. lia.
          - exists sig', ((true, []) :: segs). split; [exact H1|].
            assert (Ed1 : Done t1 = false) by (unfold Done in *; rewrite Htv, Hi; exact Ed).
            rewrite Ed1 in H2.
            split; [rewrite H2; cbn [Buf map concat]; rewrite app_nil_r, <- !app_assoc; reflexivity|].
            cbn [map concat snd app]. rewrite H3, Htv, Hi. reflexivity. }
        { destruct f as [|f']; [unfold addtag_measure in Hf; lia|].
          unfold GetRemaining.
          rewrite addtag_loop_done
            by (unfold Done; rewrite TagAndValue_set_Idx, tag_Idx_set_Idx; apply Nat.eqb_refl).
          unfold Done at 1. rewrite TagAndValue_set_Idx, tag_Idx_set_Idx, Nat.eqb_refl.
          eexists _, [(false, drop (tag_Idx t1) (TagAndValue t1))].
          split; [reflexivity|]. cbn [Buf].
          split; [cbn [map concat]; rewrite !app_nil_r, <- app_assoc; reflexivity|].
          cbn [map concat snd]. rewrite app_nil_r, Htv, Hi. reflexivity. }
Qed.

(** X10: [AddTag] with a non-empty tag name ends, and appends the tag
    bytes in order, some pieces preceded by CRLF SP, followed by [;]. *)
Theorem AddTag_lossless sig t :
  1 <= tag_TagLen t -> TagAndValue t <> [] ->
  exists sig' segs, AddTag sig t = Some sig' /\
    Buf sig' = Buf sig ++ concat (map (fun '(b, p) => (if b : bool then [CR; LF; SP] else []) ++ p) segs)
               ++ bs ";" /\
    concat (map snd segs) = TagAndValue t.
Proof.
  intros HL Hne. unfold AddTag.
  destruct (addtag_loop_spec (2 * length (TagAndValue t) + 2) sig (Reset t))
    as (sig' & segs & H1 & H2 & H3).
  - unfold Reset. rewrite tag_TagLen_set_Idx. exact HL.
  - unfold Reset. rewrite tag_Idx_set_Idx. lia.
  - unfold addtag_measure, Reset. rewrite TagAndValue_set_Idx, tag_Idx_set_Idx.
    destruct (LineLen sig <=? 1)%Z; lia.
  - exists sig', segs. split; [exact H1|].
    assert (Hd : Done (Reset t) = false).
    { unfold Done, Reset. rewrite TagAndValue_set_Idx, tag_Idx_set_Idx.
      destruct (TagAndValue t); [congruence|reflexivity]. }
    rewrite Hd in H2. split; [exact H2|].
    rewrite H3. unfold Reset. rewrite TagAndValue_set_Idx, tag_Idx_set_Idx. reflexivity.
Qed.

(** X11: [AddPlainTag] with an empty tag name and a value that does not fit
    on the line never returns: [NextBreak(0)] is [0], so the [GetString]
    loop makes no progress. *)
Theorem AddPlainTag_empty_name_hangs sig value :
  (LineLen sig <= 76)%Z -> (80 - LineLen sig - 3 < Z.of_nat (length value) + 1)%Z ->
  AddPlainTag sig [] value = None /\
  (forall fuel,
     getstring_loop fuel
       (fun e => delim_NextBreak {| dl_TagLen := 0; dl_TagAndValue := bs "=" ++ value;
                                    dl_Delimiter := []; dl_Idx := 0 |} e)
       0 (Z.to_nat (80 - LineLen sig - 1 - 2)) = None).
Proof.
  intros H1 H2.
  assert (Hst : forall fuel,
     getstring_loop fuel
       (fun e => delim_NextBreak {| dl_TagLen := 0; dl_TagAndValue := bs "=" ++ value;
                                    dl_Delimiter := []; dl_Idx := 0 |} e)
       0 (Z.to_nat (80 - LineLen sig - 1 - 2)) = None).
  { intros fuel. apply getstring_loop_stuck; [reflexivity|lia]. }
  split; [|exact Hst].
  unfold AddPlainTag, AddTag, NewDKIMTagPlain, Reset, set_Idx. cbn [TagAndValue dl_TagAndValue].
  replace (2 * length ([] ++ bs "=" ++ value) + 2)
    with (S (2 * length ([] ++ bs "=" ++ value) + 1)) by lia.
  cbn [addtag_loop Done tag_Idx TagAndValue dl_Idx dl_TagAndValue].
  replace (0 =? length ([] ++ bs "=" ++ value)) with false by reflexivity.
  replace (80 - LineLen sig - 1 - 2 <=? 0)%Z with false by (symmetry; apply Z.leb_gt; lia).
  unfold GetString, GetString_body. cbn [dl_TagAndValue dl_Idx].
  replace (length ([] ++ bs "=" ++ value) - 0 <=? Z.to_nat (80 - LineLen sig - 1 - 2))
    with false by (symmetry; apply Nat.leb_gt; cbn; lia).
  replace (0 + Z.to_nat (80 - LineLen sig - 1 - 2) <? length ([] ++ bs "=" ++ value))
    with true by (symmetry; apply Nat.ltb_lt; cbn; lia).
  rewrite Hst. reflexivity.
Qed.

Lemma scan_step_i EF p s : scan_step EF p = Some s -> sig_i s = p.1.
Proof.
  destruct p as [i kv]; unfold scan_step; destruct (parseHeaderField kv) as [k v].
  destruct (EF k headerFieldName); intros H; inversion H; reflexivity.
Qed.

Lemma scan_sorted_from EF k h :
  Forall (fun s => k <= sig_i s) (omap (scan_step EF) (imap (fun i x => (k + i, x)) h))
  /\ StronglySorted (fun s t => sig_i s < sig_i t) (omap (scan_step EF) (imap (fun i x => (k + i, x)) h)).
Proof.
  revert k; induction h as [|x h IH]; intros k; [split; constructor|].
  rewrite imap_cons.
  rewrite (imap_ext _ (fun i x => (S k + i, x))) by (intros; cbn; f_equal; lia).
  destruct (IH (S k)) as [HF HS].
  cbn [omap list_omap]. rewrite Nat.add_0_r.
  destruct (scan_step EF (k, x)) as [s|] eqn:E.
  - apply scan_step_i in E; cbn in E.
    split.
    + constructor; [lia|]. eapply Forall_impl; [exact HF|]. cbn; intros; lia.
    + constructor; [exact HS|]. eapply Forall_impl; [exact HF|]. cbn; intros; lia.
  - split; [eapply Forall_impl; [exact HF|]; cbn; intros; lia | exact HS].
Qed.

(** X12: the signatures found are exactly the [DKIM-Signature] fields of the
    header, with their index and trimmed value, in increasing index order. *)
Theorem scan_signatures_spec EqualFold h :
  (forall s, s ∈ scan_signatures EqualFold h <->
     exists kv, h !! sig_i s = Some kv
       /\ EqualFold (parseHeaderField kv).1 headerFieldName = true
       /\ sig_v s = (parseHeaderField kv).2)
  /\ StronglySorted (fun s t => sig_i s < sig_i t) (scan_signatures EqualFold h).
Proof.
  assert (Hs : scan_signatures EqualFold h = omap (scan_step EqualFold) (imap (fun i x => (0 + i, x)) h)).
  { unfold scan_signatures. f_equal. }
  split.
  - intros s. rewrite Hs, list_elem_of_omap. split.
    + intros [[i kv] [Hin Hf]].
      apply elem_of_lookup_imap in Hin as (j & y & Hj & Hl).
      cbn in Hj. injection Hj as -> ->.
      unfold scan_step in Hf. destruct (parseHeaderField y) as [k v] eqn:Ep.
      destruct (EqualFold k headerFieldName) eqn:Ee; [|discriminate].
      injection Hf as <-. exists y. rewrite Ep. cbn. auto.
    + intros (kv & Hl & He & Hv). exists (sig_i s, kv). split.
      * apply elem_of_lookup_imap. exists (sig_i s), kv. auto.
      * unfold scan_step. destruct (parseHeaderField kv) as [k v]. cbn in *.
        rewrite He. destruct s; cbn in *; subst; reflexivity.
  - rewrite Hs. apply scan_sorted_from.
Qed.

(** ** Witnesses of the further properties *)

Lemma writeHeader_readHeader_witness :
  Forall (fun l => l <> [] /\ LF ∉ l) [bs "From: a"; bs " b"; bs "To: c"] /\
  exists h, readHeader (header_lines [bs "From: a"; bs " b"; bs "To: c"] ++ crlf ++ bs "body") = inl (h, bs "body") /\
            writeHeader h ++ bs "body" = header_lines [bs "From: a"; bs " b"; bs "To: c"] ++ crlf ++ bs "body".
Proof.
  assert (H : Forall (fun l => l <> [] /\ LF ∉ l) [bs "From: a"; bs " b"; bs "To: c"])
    by (apply (bool_decide_unpack _); vm_compute; reflexivity).
  split; [exact H | exact (writeHeader_readHeader _ (bs "body") H)].
Defined.

Lemma readHeader_writeHeader_witness :
  Forall (fun g => g <> [] /\ Forall (fun l => l <> [] /\ LF ∉ l) g /\
                   Forall (fun l => starts_wsp l = true) (tail g))
         [[bs "From: a"; bs " b"]; [bs "To: c"]] /\
  Forall (fun g => starts_wsp (hd [] g) = false) (drop 1 [[bs "From: a"; bs " b"]; [bs "To: c"]]) /\
  readHeader (writeHeader (map header_lines [[bs "From: a"; bs " b"]; [bs "To: c"]]) ++ bs "body")
    = inl (map header_lines [[bs "From: a"; bs " b"]; [bs "To: c"]], bs "body").
Proof.
  assert (H1 : Forall (fun g => g <> [] /\ Forall (fun l => l <> [] /\ LF ∉ l) g /\
                   Forall (fun l => starts_wsp l = true) (tail g))
         [[bs "From: a"; bs " b"]; [bs "To: c"]])
    by (apply (bool_decide_unpack _); vm_compute; reflexivity).
  assert (H2 : Forall (fun g => starts_wsp (hd [] g) = false) (drop 1 [[bs "From: a"; bs " b"]; [bs "To: c"]]))
    by (apply (bool_decide_unpack _); vm_compute; reflexivity).
  split; [exact H1|]. split; [exact H2|].
  exact (readHeader_writeHeader _ (bs "body") H1 H2).
Defined.

Lemma formatHeaderParams_b_last_witness :
  (<[bs "b" := bs "x"]> (<[bs "d" := bs "example.com"]> ∅) : gmap bytes bytes) !! bs "b" = Some (bs "x") /\
  exists pre, formatHeaderParams (<[bs "b" := bs "x"]> (<[bs "d" := bs "example.com"]> ∅)) =
    pre ++ crlf ++ [SP] ++
    (if 71 <? length (bs "x") then foldHeaderField (bs "b=" ++ bs "x" ++ bs ";")
     else bs "b=" ++ bs "x" ++ bs ";").
Proof.
  assert (H : (<[bs "b" := bs "x"]> (<[bs "d" := bs "example.com"]> ∅) : gmap bytes bytes) !! bs "b" = Some (bs "x"))
    by (vm_compute; reflexivity).
  split; [exact H | exact (formatHeaderParams_b_last _ _ H)].
Defined.

Lemma AddTag_lossless_witness :
  1 <= tag_TagLen (NewDKIMTagPlain (bs "d") (bs "example.com")) /\
  TagAndValue (NewDKIMTagPlain (bs "d") (bs "example.com")) <> [] /\
  exists sig' segs, AddTag NewDKIMSignature (NewDKIMTagPlain (bs "d") (bs "example.com")) = Some sig' /\
    Buf sig' = Buf NewDKIMSignature ++ concat (map (fun '(b, p) => (if b : bool then [CR; LF; SP] else []) ++ p) segs)
               ++ bs ";" /\
    concat (map snd segs) = TagAndValue (NewDKIMTagPlain (bs "d") (bs "example.com")).
Proof.
  assert (H1 : 1 <= tag_TagLen (NewDKIMTagPlain (bs "d") (bs "example.com"))) by (vm_compute; lia).
  assert (H2 : TagAndValue (NewDKIMTagPlain (bs "d") (bs "example.com")) <> []) by (vm_compute; discriminate).
  split; [exact H1|]. split; [exact H2|].
  exact (AddTag_lossless NewDKIMSignature _ H1 H2).
Defined.

Lemma AddPlainTag_empty_name_hangs_witness :
  (LineLen NewDKIMSignature <= 76)%Z /\
  (80 - LineLen NewDKIMSignature - 3 < Z.of_nat (length (bs "0123456789012345678901234567890123456789012345678901234567890123456789")) + 1)%Z /\
  AddPlainTag NewDKIMSignature [] (bs "0123456789012345678901234567890123456789012345678901234567890123456789") = None.
Proof.
  assert (H1 : (LineLen NewDKIMSignature <= 76)%Z) by (vm_compute; discriminate).
  assert (H2 : (80 - LineLen NewDKIMSignature - 3 < Z.of_nat (length (bs "0123456789012345678901234567890123456789012345678901234567890123456789")) + 1)%Z)
    by (vm_compute; reflexivity).
  split; [exact H1|]. split; [exact H2|].
  exact (proj1 (AddPlainTag_empty_name_hangs NewDKIMSignature _ H1 H2)).
Defined.
